(** * Diff Digest: the streamed note extractor and the local summary cache

    A shallow embedding of the client logic of [src/app/page.tsx]
    (the read loop of [fetchAIGeneratedDiff], [fetchDiffs], the startup
    effect), of the request validation of
    [src/app/api/ai-generated-diff/route.ts] and of the table declared in
    [src/lib/db.ts].

    A JavaScript string is modelled by a [string], one character for one
    code unit (the patterns of the read loop carry no flag, so they look
    at code units and nothing else); a JavaScript object used as a bag of
    named properties by a [gmap] from property names to values; a promise
    by the [Outcome] it settles with.  State is passed explicitly: every
    function of the page takes the [World] it runs in, and what the
    environment does (responses, chunks, the clock) is an argument. *)

From Stdlib Require Import Ascii ZArith Lia.
From stdpp Require Import gmap strings list fin_maps pretty.

Local Open Scope Z_scope.

(* ===================================================================== *)
(** ** Text                                                              *)
(* ===================================================================== *)

(** The double-quote character, code 34. *)
Definition dquote : ascii := Ascii.ascii_of_nat 34.

(** The backslash, code 92. *)
Definition backslash : ascii := Ascii.ascii_of_nat 92.

(** [has_dquote s]: some character of [s] is the double quote. *)
Fixpoint has_dquote (s : string) : bool :=
  match s with
  | EmptyString => false
  | String c s' => if Ascii.eqb c dquote then true else has_dquote s'
  end.

(** [s1 || s2] on JavaScript strings: the empty string is the only falsy
    string. *)
Definition or_str (s1 s2 : string) : string :=
  match s1 with
  | EmptyString => s2
  | String _ _ => s1
  end.

(** [v] is an initial segment of [v']. *)
Definition str_prefix (v v' : string) : Prop := ∃ t, v' = v +:+ t.

(** Concatenation of the chunks of a stream, in arrival order. *)
Definition concat_chunks (chunks : list string) : string :=
  foldr String.append EmptyString chunks.

(* ===================================================================== *)
(** ** The two regular expressions of the read loop                      *)
(* ===================================================================== *)

Module Regex.

(** The negated class with a star that ends both patterns: the longest
    run, from the current position, of characters other than the double
    quote (the class excludes nothing else, so line ends are in it).
    The star is greedy and is the last item of the pattern, so nothing
    ever backtracks into it. *)
Fixpoint not_quote_run (s : string) : string :=
  match s with
  | EmptyString => EmptyString
  | String c s' =>
      if Ascii.eqb c dquote then EmptyString else String c (not_quote_run s')
  end.

(** A literal at the current position: the rest of the subject behind
    it, or [None] when the subject does not start with the literal. *)
Fixpoint strip_literal (lit s : string) : option string :=
  match lit, s with
  | EmptyString, _ => Some s
  | String a lit', String b s' =>
      if Ascii.eqb a b then strip_literal lit' s' else None
  | String _ _, EmptyString => None
  end.

(** [s.match(re)] followed by [[1]], for [re] the literal [lit] and then
    the capturing group of the class above: the start positions are
    tried from the left, the first one where the literal stands wins,
    and the result is capture group 1.  [None] is JavaScript's [null]. *)
Fixpoint match_capture (lit s : string) : option string :=
  match strip_literal lit s with
  | Some rest => Some (not_quote_run rest)
  | None =>
      match s with
      | EmptyString => None
      | String _ s' => match_capture lit s'
      end
  end.

(** The literal part of both patterns: quote, field name, quote, colon,
    quote. *)
Definition field_opener (name : string) : string :=
  String dquote (name +:+ String dquote (String ":" (String dquote EmptyString))).

(** The literal of the pattern for [developer_notes] (line 211). *)
Definition devRe : string := field_opener "developer_notes".
(** The literal of the pattern for [marketing_notes] (line 212). *)
Definition mktRe : string := field_opener "marketing_notes".

End Regex.

(* ===================================================================== *)
(** ** Extraction state of one generation request                        *)
(* ===================================================================== *)

(** The three [let] variables of [fetchAIGeneratedDiff] that the read
    loop updates. *)
Record ExtractionState := {
  accumulated : string;
  finalDeveloper : string;
  finalMarketing : string;
}.

Definition initialExtraction : ExtractionState :=
  {| accumulated := ""; finalDeveloper := ""; finalMarketing := "" |}.

(** One pass of the loop body over the local variables: append the
    decoded chunk, run both patterns on the whole buffer, keep the old
    value of a field whose pattern gave [null]. *)
Definition extract_step (st : ExtractionState) (chunk : string) : ExtractionState :=
  let acc := accumulated st +:+ chunk in
  let devMatch := Regex.match_capture Regex.devRe acc in
  let mktMatch := Regex.match_capture Regex.mktRe acc in
  {| accumulated := acc;
     finalDeveloper := from_option id (finalDeveloper st) devMatch;
     finalMarketing := from_option id (finalMarketing st) mktMatch |}.

(** The complete text of a stream: the arguments object of the tool call
    [set_release_notes] (route.ts, lines 52-81) with its two string
    fields, written without white space. *)
Definition payload (D M : string) : string :=
  String "{" (Regex.devRe +:+ D +:+ String dquote (String "," (Regex.mktRe +:+ M +:+
    String dquote (String "}" EmptyString)))).

(* ===================================================================== *)
(** ** JavaScript values                                                 *)
(* ===================================================================== *)

(** Property values that are not objects.  Every number of this program
    is an integer (a page number, a status, [Date.now()]). *)
Inductive Prim :=
  | PNull
  | PBool (b : bool)
  | PNum (n : Z)
  | PStr (s : string).

#[global] Instance Prim_eq_dec : EqDecision Prim.
Proof. solve_decision. Defined.

(** An object whose properties hold primitive values: a [DiffItem], a
    [DiffEntity], the argument of [update].  A property that is absent
    reads as [undefined], which is [None] here. *)
Abbreviation Obj := (gmap string Prim).

(** What a parsed JSON body holds under one property. *)
Inductive Json :=
  | JPrim (p : Prim)
  | JArr (items : list Obj)
  | JObj (o : Obj).

#[global] Instance Json_eq_dec : EqDecision Json.
Proof. solve_decision. Defined.

(** JavaScript truthiness of a property read. *)
Definition truthy (v : option Prim) : bool :=
  match v with
  | None | Some PNull => false
  | Some (PBool b) => b
  | Some (PNum n) => negb (n =? 0)
  | Some (PStr s) => negb (String.eqb s "")
  end.

(** [o.f || ""] for a property that [DiffEntity] declares as an optional
    string. *)
Definition str_or_empty (v : option Prim) : string :=
  match v with
  | Some (PStr s) => s
  | _ => ""
  end.

(** How a settled promise ends. *)
Inductive Outcome (A : Type) :=
  | Fulfilled (a : A)
  | Rejected (err : string).
Arguments Fulfilled {A} a.
Arguments Rejected {A} err.

(* ===================================================================== *)
(** ** The table [db.diffs]                                              *)
(* ===================================================================== *)

Module Dexie.

(** [diffs!: Table<DiffEntity, string>] with the schema [id, fetchedAt]
    of [src/lib/db.ts]: objects stored under a string primary key that
    is read from their own property [id]. *)
Abbreviation Table := (gmap string Obj).

Definition keyPath : string := "id".

(** The primary key of an object: its [id] property when that is a
    string. *)
Definition key_of (o : Obj) : option string :=
  match o !! keyPath with
  | Some (PStr k) => Some k
  | _ => None
  end.

(** Modelled from the spec: [updateFields(id, partialFields)], which the
    code calls as [db.diffs.update]; the dexie package is not under
    src/.  The given properties are merged into the record stored
    under [key] and every other property of it is kept; when no record
    is stored under [key] nothing is written and nothing is thrown.  The
    promise carries the number of records changed, which no caller
    reads. *)
Definition update (key : string) (changes : Obj) (t : Table) : Table * Outcome nat :=
  match t !! key with
  | Some o =>
      let o' := changes ∪ o in
      (<[key := o']> t, Fulfilled (if decide (o' = o) then 0%nat else 1%nat))
  | None => (t, Fulfilled 0%nat)
  end.

(** Storing one object under its own key; an object without a key is
    not stored. *)
Definition put (t : Table) (o : Obj) : Table :=
  match key_of o with
  | Some k => <[k := o]> t
  | None => t
  end.

(** Modelled from the spec: [upsertMany(records)], which the code calls
    as [db.diffs.bulkPut]; the dexie package is not under src/.  Each
    object is stored under its key, in list order, and replaces, whole,
    what was stored there.  An object without a key cannot be stored: the
    promise is then rejected, the other objects being stored all the
    same. *)
Definition bulkPut (items : list Obj) (t : Table) : Table * Outcome unit :=
  (foldl put t items,
   if forallb (λ o, bool_decide (is_Some (key_of o))) items
   then Fulfilled tt else Rejected "BulkError").

(** Modelled from the spec: [getAll()], which the code calls as
    [db.diffs.toArray]; the dexie package is not under src/.  Every
    stored object, each once. *)
Definition toArray (t : Table) : list Obj := (map_to_list t).*2.

(** Modelled from the spec: [clearAll()], which the code calls as
    [db.diffs.clear]; the dexie package is not under src/. *)
Definition clear (t : Table) : Table := ∅.

End Dexie.

(* ===================================================================== *)
(** ** State of the page                                                 *)
(* ===================================================================== *)

(** [interface DiffItem] (page.tsx, lines 16-21). *)
Module DiffItem.
Record t := {
  id : string;
  description : string;
  diff : string;
  url : string;
}.

(** The object the interface describes, property by property. *)
Definition to_obj (d : t) : Obj :=
  {[ "id" := PStr (id d); "description" := PStr (description d);
     "diff" := PStr (diff d); "url" := PStr (url d) ]}.
End DiffItem.

(** [interface ApiResponse] (page.tsx, lines 23-28) as the parsed body of
    a listing response: [nextPage] is a number or [null]. *)
Definition ApiResponse_json (diffs : list Obj) (nextPage : option Z)
    (currentPage perPage : Z) : gmap string Json :=
  {[ "diffs" := JArr diffs;
     "nextPage" := JPrim (from_option PNum PNull nextPage);
     "currentPage" := JPrim (PNum currentPage);
     "perPage" := JPrim (PNum perPage) ]}.

(** One entry of [generatedSummaries]. *)
Record Summary := {
  developer : string;
  marketing : string;
}.

(** A call on [db.diffs] that writes. *)
Inductive DbCall :=
  | DbUpdate (key : string) (changes : Obj)
  | DbBulkPut (items : list Obj).

#[global] Instance DbCall_eq_dec : EqDecision DbCall.
Proof. solve_decision. Defined.

(** The browser's database: the table and, in call order, the writes
    issued on it.  Writes take effect in the order they are issued. *)
Record Db := {
  db_diffs : gmap string Obj;
  db_calls : list DbCall;
}.

#[global] Instance Db_eq_dec : EqDecision Db.
Proof. solve_decision. Defined.

(** The [useState] cells of the listing.  [diffs] is [None] when the cell
    holds something that is not an array of records; [currentPage] and
    [nextPage] are [None] when they hold [undefined]. *)
Record Listing := {
  diffs : option (list Obj);
  isLoading : bool;
  error : option string;
  currentPage : option Json;
  nextPage : option Json;
  initialFetchDone : bool;
}.

(** The [useState] cells of the generated notes. *)
Record Notes := {
  generatedSummaries : gmap string Summary;
  loadingSummaries : gmap string bool;
  summaryErrors : gmap string string;
}.

Inductive Level := LogError | LogWarn.

#[global] Instance Level_eq_dec : EqDecision Level.
Proof. solve_decision. Defined.

Record World := {
  db : Db;
  listing : Listing;
  notes : Notes;
  console : list (Level * list string);
}.

Definition with_db (f : Db → Db) (w : World) : World :=
  {| db := f (db w); listing := listing w; notes := notes w; console := console w |}.
Definition with_listing (f : Listing → Listing) (w : World) : World :=
  {| db := db w; listing := f (listing w); notes := notes w; console := console w |}.
Definition with_notes (f : Notes → Notes) (w : World) : World :=
  {| db := db w; listing := listing w; notes := f (notes w); console := console w |}.

(** [console.error(...)] and [console.warn(...)]. *)
Definition log (l : Level) (args : list string) (w : World) : World :=
  {| db := db w; listing := listing w; notes := notes w;
     console := console w ++ [(l, args)] |}.

Definition setGeneratedSummaries (f : gmap string Summary → gmap string Summary) : World → World :=
  with_notes (λ n, {| generatedSummaries := f (generatedSummaries n);
                      loadingSummaries := loadingSummaries n;
                      summaryErrors := summaryErrors n |}).
Definition setLoadingSummaries (f : gmap string bool → gmap string bool) : World → World :=
  with_notes (λ n, {| generatedSummaries := generatedSummaries n;
                      loadingSummaries := f (loadingSummaries n);
                      summaryErrors := summaryErrors n |}).
Definition setSummaryErrors (f : gmap string string → gmap string string) : World → World :=
  with_notes (λ n, {| generatedSummaries := generatedSummaries n;
                      loadingSummaries := loadingSummaries n;
                      summaryErrors := f (summaryErrors n) |}).

(** [db.diffs.update(key, changes)] on the page's database. *)
Definition db_update (key : string) (changes : Obj) (w : World) : World * Outcome nat :=
  let r := Dexie.update key changes (db_diffs (db w)) in
  (with_db (λ d, {| db_diffs := r.1; db_calls := db_calls d ++ [DbUpdate key changes] |}) w,
   r.2).

(** [db.diffs.bulkPut(items)] on the page's database. *)
Definition db_bulkPut (items : list Obj) (w : World) : World * Outcome unit :=
  let r := Dexie.bulkPut items (db_diffs (db w)) in
  (with_db (λ d, {| db_diffs := r.1; db_calls := db_calls d ++ [DbBulkPut items] |}) w,
   r.2).

(* ===================================================================== *)
(** ** [fetchAIGeneratedDiff] (page.tsx, lines 152-253)                  *)
(* ===================================================================== *)

(** How the stream of one response ends: [read()] reports [done], or
    rejects (the request was aborted, the connection broke). *)
Inductive StreamEnd :=
  | StreamDone
  | StreamError (message : string).

(** What the environment does with one generation request.  A chunk
    comes with the value [Date.now()] has while it is handled; [chunk] is
    the text [decoder.decode(value)] gives for that read. *)
Inductive FetchOutcome :=
  | FetchThrew (isAbortError : bool) (message : string)
  | FetchNotOk (errorMsg : string)
  | FetchBody (reads : list (string * Z)) (ending : StreamEnd) (endTime : Z).

(** The argument of both [update] calls. *)
Definition summary_changes (dev mkt : string) (now : Z) : Obj :=
  {[ "summaryDeveloper" := PStr dev; "summaryMarketing" := PStr mkt;
     "summaryUpdatedAt" := PNum now ]}.

(** Lines 153-158. *)
Definition begin_request (id : string) (w : World) : World :=
  setSummaryErrors (<[id := ""]>)
    (setLoadingSummaries (<[id := true]>)
       (setGeneratedSummaries (<[id := {| developer := ""; marketing := "" |}]>) w)).

(** Lines 217-224: the entry the updater computes from the loop's
    variables and the previous entry, [final || prev?.field || ""]. *)
Definition surfaced (st : ExtractionState) (prev : option Summary) : Summary :=
  {| developer := or_str (or_str (finalDeveloper st) (default "" (developer <$> prev))) "";
     marketing := or_str (or_str (finalMarketing st) (default "" (marketing <$> prev))) "" |}.

(** Lines 206-233, one pass of the loop for a read that carries a chunk,
    in the run where React runs the updater given to
    [setGeneratedSummaries] before anything else happens, as it does
    when chunks come one by one with React idle in between; the
    [update] the updater issues is not awaited and its rejection is only
    warned about.  The runs in which React gets to the updater later
    are those of [run_tick] below, of which this one is an instance
    (lemma [eager_run]). *)
Definition loop_body (id : string) (sw : ExtractionState * World) (rd : string * Z)
    : ExtractionState * World :=
  let st := extract_step sw.1 rd.1 in
  let updated := surfaced st (generatedSummaries (notes sw.2) !! id) in
  let r := db_update id (summary_changes (developer updated) (marketing updated) rd.2) sw.2 in
  let w1 := match r.2 with
            | Fulfilled _ => r.1
            | Rejected e => log LogWarn ["Dexie partial save failed"; e] r.1
            end in
  (st, setGeneratedSummaries (<[id := updated]>) w1).

(** Lines 204-234: the loop over the chunks of the stream. *)
Definition read_loop (id : string) (reads : list (string * Z))
    (sw : ExtractionState * World) : ExtractionState * World :=
  foldl (loop_body id) sw reads.

(** Lines 235-240: the handler of a rejected [read()]. *)
Definition on_stream_end (id : string) (ending : StreamEnd) (w : World) : World :=
  match ending with
  | StreamDone => w
  | StreamError m =>
      let message := or_str m "Error while reading AI stream." in
      setSummaryErrors (<[id := message]>) (log LogError [message] w)
  end.

(** Lines 196-240: the state when control leaves the [try]/[catch]
    around the loop. *)
Definition stream_phase (id : string) (reads : list (string * Z)) (ending : StreamEnd)
    (w : World) : ExtractionState * World :=
  let sw := read_loop id reads (initialExtraction, w) in
  (sw.1, on_stream_end id ending sw.2).

(** Lines 242-250: the awaited write after the loop. *)
Definition final_write (id : string) (st : ExtractionState) (endTime : Z) (w : World) : World :=
  let r := db_update id (summary_changes (finalDeveloper st) (finalMarketing st) endTime) w in
  match r.2 with
  | Fulfilled _ => r.1
  | Rejected e => log LogError ["Failed to store summary"; e] r.1
  end.

(** Lines 174-181 and 190-193: a request that never got a body. *)
Definition fail_request (id : string) (logged : list string) (message : string) (w : World) : World :=
  setLoadingSummaries (<[id := false]>)
    (setSummaryErrors (<[id := message]>) (log LogError logged w)).

Definition fetchAIGeneratedDiff (diff : DiffItem.t) (r : FetchOutcome) (w : World) : World :=
  let id := DiffItem.id diff in
  let w0 := begin_request id w in
  match r with
  | FetchThrew isAbortError m =>
      let message := if isAbortError then "Request timed out. Please try again."
                     else or_str m "Failed to fetch AI generated summary." in
      fail_request id ["AI generation error:"; message] message w0
  | FetchNotOk errorMsg => fail_request id [errorMsg] errorMsg w0
  | FetchBody reads ending endTime =>
      let sw := stream_phase id reads ending w0 in
      setLoadingSummaries (<[id := false]>) (final_write id sw.1 endTime sw.2)
  end.

(* ===================================================================== *)
(** ** [fetchDiffs] (page.tsx, lines 100-150) and the startup effect     *)
(* ===================================================================== *)

(** What the environment does with one listing request: something is
    thrown before a body is parsed ([message] is [None] when the thrown
    value is no [Error]), or the body parses to the object [data]. *)
Inductive ListingOutcome :=
  | ListingThrew (message : option string)
  | ListingData (data : gmap string Json).

Definition as_array (v : option Json) : option (list Obj) :=
  match v with
  | Some (JArr items) => Some items
  | _ => None
  end.

Definition set_listing (ds : option (list Obj)) (l : bool) (e : option string)
    (cp np : option Json) (done : bool) : World → World :=
  with_listing (λ _, {| diffs := ds; isLoading := l; error := e; currentPage := cp;
                        nextPage := np; initialFetchDone := done |}).

(** Lines 130-138: the fetched records, each with [fetchedAt] added, go
    to the table; whatever is thrown there is logged and dropped.
    [data.diffs.map] throws when [data.diffs] is not an array. *)
Definition persist_diffs (data : gmap string Json) (now : Z) (w : World) : World :=
  match data !! "diffs" with
  | Some (JArr items) =>
      let entities := (λ d : Obj, <["fetchedAt" := PNum now]> d) <$> items in
      let r := db_bulkPut entities w in
      match r.2 with
      | Fulfilled _ => r.1
      | Rejected e => log LogError ["Failed to persist diffs"; e] r.1
      end
  | _ => log LogError ["Failed to persist diffs"; "TypeError"] w
  end.

Definition fetchDiffs (page : Z) (r : ListingOutcome) (now : Z) (w : World) : World :=
  let l := listing w in
  match r with
  | ListingThrew message =>
      set_listing (diffs l) false (Some (default "An unknown error occurred" message))
        (currentPage l) (nextPage l) (initialFetchDone l) w
  | ListingData data =>
      let fetched := as_array (data !! "diffs") in
      let ds := if page =? 1 then fetched
                else prev ← diffs l; new ← fetched; Some (prev ++ new) in
      set_listing ds false None (data !! "currentPage") (data !! "nextPage") true
        (persist_diffs data now w)
  end.

(** Lines 55-80: the effect that runs once when the page is mounted. *)
Definition add_stored_summary (m : gmap string Summary) (d : Obj) : gmap string Summary :=
  if truthy (d !! "summaryDeveloper") || truthy (d !! "summaryMarketing")
  then match Dexie.key_of d with
       | Some k => <[k := {| developer := str_or_empty (d !! "summaryDeveloper");
                             marketing := str_or_empty (d !! "summaryMarketing") |}]> m
       | None => m
       end
  else m.

Definition startup (w : World) : World :=
  let storedDiffs := Dexie.toArray (db_diffs (db w)) in
  match storedDiffs with
  | [] => w
  | _ :: _ =>
      setGeneratedSummaries (λ _, foldl add_stored_summary ∅ storedDiffs)
        (with_listing (λ l, {| diffs := Some storedDiffs; isLoading := isLoading l;
                               error := error l; currentPage := currentPage l;
                               nextPage := nextPage l;
                               initialFetchDone := initialFetchDone l |}) w)
  end.

(* ===================================================================== *)
(** ** Request validation of the backend (route.ts, lines 3-32)          *)
(* ===================================================================== *)

(** The answer of [POST] up to the call of the model: an error response,
    or the two values that go into the prompt.  The body is [None] when
    it is no JSON, and an object otherwise. *)
Inductive PostResult :=
  | ErrorResponse (status : Z) (error : string)
  | Generate (description diff : Prim).

#[global] Instance PostResult_eq_dec : EqDecision PostResult.
Proof. solve_decision. Defined.

Definition POST (hasApiKey : bool) (body : option (gmap string Json)) : PostResult :=
  if negb hasApiKey then ErrorResponse 500 "Missing OpenAI API key."
  else match body with
       | None => ErrorResponse 400 "Malformed JSON in request body."
       | Some b =>
           match b !! "diffItem" with
           | Some (JObj diffItem) =>
               match diffItem !! "description", diffItem !! "diff" with
               | Some description, Some diff =>
                   if truthy (Some description) && truthy (Some diff)
                   then Generate description diff
                   else ErrorResponse 400 "diffItem with description and diff is required."
               | _, _ => ErrorResponse 400 "diffItem with description and diff is required."
               end
           | _ => ErrorResponse 400 "diffItem with description and diff is required."
           end
       end.

(** The body [fetchAIGeneratedDiff] sends (line 169). *)
Definition request_body (diff : Obj) : gmap string Json := {[ "diffItem" := JObj diff ]}.

(* ===================================================================== *)
(** ** Initial and reachable states                                      *)
(* ===================================================================== *)

(** The page before anything is fetched: the initial values of the
    [useState] cells (page.tsx, lines 31-53) and an empty table. *)
Definition initialWorld : World :=
  {| db := {| db_diffs := ∅; db_calls := [] |};
     listing := {| diffs := Some []; isLoading := false; error := None;
                   currentPage := Some (JPrim (PNum 1)); nextPage := Some (JPrim PNull);
                   initialFetchDone := false |};
     notes := {| generatedSummaries := ∅; loadingSummaries := ∅; summaryErrors := ∅ |};
     console := [] |}.

(** The extraction states a request can be in: those the loop reaches
    from its initial variables. *)
Definition reachable (st : ExtractionState) : Prop :=
  ∃ chunks, st = foldl extract_step initialExtraction chunks.

(** A sample page, used where a statement is evaluated: one pull request
    listed on page 1 at time 5, so stored in the table without notes. *)
Definition pr42 : DiffItem.t :=
  {| DiffItem.id := "42"; DiffItem.description := "Fix crash on start";
     DiffItem.diff := "- a + b"; DiffItem.url := "https://example.test/pull/42" |}.

Definition listed42 : World :=
  fetchDiffs 1 (ListingData (ApiResponse_json [DiffItem.to_obj pr42] None 1 10)) 5 initialWorld.

(** The sample page after one complete generation for that pull request:
    its record holds both notes. *)
Definition noted42 : World :=
  fetchAIGeneratedDiff pr42 (FetchBody [(payload "Old dev" "Old mkt", 6)] StreamDone 6) listed42.

(** A listing response and a record that use other property names than
    the interfaces of page.tsx: [items], [nextPageToken], [pageSize] for
    the page and [diffText], [sourceUrl] for the record. *)
Definition renamed_record : Obj :=
  {[ "id" := PStr "42"; "description" := PStr "Fix crash on start";
     "diffText" := PStr "- a + b"; "sourceUrl" := PStr "https://example.test/pull/42" ]}.

Definition renamed_response : gmap string Json :=
  {[ "items" := JArr [renamed_record];
     "nextPageToken" := JPrim PNull;
     "currentPage" := JPrim (PNum 1);
     "pageSize" := JPrim (PNum 10) ]}.

(* ===================================================================== *)
(** ** The handlers of the page (page.tsx, lines 255-325)                *)
(* ===================================================================== *)

(** The page with the one [useState] cell that [World] leaves out. *)
Record Page := {
  world : World;
  openItems : list string;
}.

#[global] Instance Summary_eq_dec : EqDecision Summary.
Proof. solve_decision. Defined.

#[global] Instance Listing_eq_dec : EqDecision Listing.
Proof. solve_decision. Defined.

#[global] Instance Notes_eq_dec : EqDecision Notes.
Proof. solve_decision. Defined.

#[global] Instance World_eq_dec : EqDecision World.
Proof. solve_decision. Defined.

#[global] Instance Page_eq_dec : EqDecision Page.
Proof. solve_decision. Defined.

(** [d.id] for an object of the list, which [DiffItem] declares a
    string. *)
Definition obj_id (d : Obj) : string := str_or_empty (d !! "id").

(** An object of the list as the argument of [fetchAIGeneratedDiff]. *)
Definition as_DiffItem (d : Obj) : DiffItem.t :=
  {| DiffItem.id := obj_id d;
     DiffItem.description := str_or_empty (d !! "description");
     DiffItem.diff := str_or_empty (d !! "diff");
     DiffItem.url := str_or_empty (d !! "url") |}.

(** The list [diffs] as the handlers iterate it.  The handlers run on a
    rendered page, where the cell holds an array. *)
Definition listed (w : World) : list Obj := default [] (diffs (listing w)).

(** [loadingSummaries[id]], [generatedSummaries[id]?.developer] and
    [generatedSummaries[id]?.marketing] as conditions. *)
Definition is_loading (w : World) (id : string) : bool :=
  default false (loadingSummaries (notes w) !! id).
Definition has_developer (w : World) (id : string) : bool :=
  negb (String.eqb (default "" (developer <$> generatedSummaries (notes w) !! id)) "").
Definition has_marketing (w : World) (id : string) : bool :=
  negb (String.eqb (default "" (marketing <$> generatedSummaries (notes w) !! id)) "").

(** [diffs.find((d) => d.id === id)] for a string [id]. *)
Definition find_diff (w : World) (id : string) : option Obj :=
  List.find (λ d : Obj, bool_decide (d !! "id" = Some (PStr id))) (listed w).

(** Lines 293-302: the object [fetchAIGeneratedDiff] is called with for
    one newly opened id, if it is called. *)
Definition should_generate (w : World) (id : string) : option Obj :=
  if is_loading w id then None
  else match find_diff w id with
       | Some diff =>
           if has_developer w id || has_marketing w id then None else Some diff
       | None => None
       end.

(** What the calls of [fetchAIGeneratedDiff] made by a handler have done
    when the handler returns: each has run up to its first [await]
    (lines 153-158). *)
Definition start_requests (started : list Obj) (w : World) : World :=
  foldl (λ w d, begin_request (obj_id d) w) w started.

(** Lines 290-305.  The result is the list of objects
    [fetchAIGeneratedDiff] was called with, in call order, and the page
    when the handler returns. *)
Definition handleAccordionChange (values : list string) (p : Page) : list Obj * Page :=
  let newlyOpened := filter (λ v, v ∉ openItems p) values in
  let started := omap (should_generate (world p)) newlyOpened in
  (started, {| world := start_requests started (world p); openItems := values |}).

(** Lines 281-288. *)
Definition allGenerated (w : World) : bool :=
  match listed w with
  | [] => false
  | _ :: _ =>
      forallb (λ d, has_developer w (obj_id d) && has_marketing w (obj_id d)
                    && negb (is_loading w (obj_id d))) (listed w)
  end.

(** Lines 266-279. *)
Definition handleGenerateAllClick (p : Page) : list Obj * Page :=
  let allIds := obj_id <$> listed (world p) in
  if allGenerated (world p) then
    let started := filter (λ d, is_loading (world p) (obj_id d) = false) (listed (world p)) in
    (started, {| world := start_requests started (world p); openItems := allIds |})
  else handleAccordionChange allIds p.

(** Lines 255-258. *)
Definition handleFetchClick (r : ListingOutcome) (now : Z) (w : World) : World :=
  fetchDiffs 1 r now
    (with_listing (λ l, {| diffs := Some []; isLoading := isLoading l; error := error l;
                           currentPage := currentPage l; nextPage := nextPage l;
                           initialFetchDone := initialFetchDone l |}) w).

(** The page number [fetchDiffs] compares with 1: the number in the
    cell; a value that is no number is not 1. *)
Definition page_of (v : Json) : Z :=
  match v with
  | JPrim (PNum n) => n
  | _ => 0
  end.

(** Truthiness of the cell [nextPage]. *)
Definition truthy_json (v : option Json) : bool :=
  match v with
  | None => false
  | Some (JPrim p) => truthy (Some p)
  | Some (JArr _) | Some (JObj _) => true
  end.

(** Lines 260-264. *)
Definition handleLoadMoreClick (r : ListingOutcome) (now : Z) (w : World) : World :=
  match nextPage (listing w) with
  | Some v => if truthy_json (Some v) then fetchDiffs (page_of v) r now w else w
  | None => w
  end.

(** Lines 307-325; [confirmClear] is the answer to the dialogue.  The
    list of calls keeps [update] and [bulkPut] only, so the call of
    [clear] does not show in it. *)
Definition handleClearStorage (confirmClear : bool) (p : Page) : Page :=
  if confirmClear then
    let w := world p in
    {| world :=
         {| db := {| db_diffs := Dexie.clear (db_diffs (db w)); db_calls := db_calls (db w) |};
            listing := {| diffs := Some []; isLoading := isLoading (listing w);
                          error := error (listing w);
                          currentPage := Some (JPrim (PNum 1));
                          nextPage := Some (JPrim PNull);
                          initialFetchDone := false |};
            notes := {| generatedSummaries := ∅; loadingSummaries := ∅;
                        summaryErrors := ∅ |};
            console := console w |};
       openItems := [] |}
  else p.

(** The page mounted anew on the same database: the cells have their
    initial values and the startup effect has run. *)
Definition remount (w : World) : World :=
  startup {| db := db w; listing := listing initialWorld; notes := notes initialWorld;
             console := [] |}.

(** The table stores every object under the object's own [id]. *)
Definition keyed (t : gmap string Obj) : Prop :=
  ∀ k o, t !! k = Some o → Dexie.key_of o = Some k.

(** Every stored object carries the time it was fetched, the second
    index of the schema in db.ts. *)
Definition stamped (t : gmap string Obj) : Prop :=
  ∀ k o, t !! k = Some o → ∃ n, o !! "fetchedAt" = Some (PNum n).

(** The two invariants of the table together. *)
Definition table_ok (t : gmap string Obj) : Prop := keyed t ∧ stamped t.

(** Lines 66-73: the entry the startup effect makes for one stored
    object, if it makes one. *)
Definition summary_of_record (d : Obj) : option Summary :=
  if truthy (d !! "summaryDeveloper") || truthy (d !! "summaryMarketing")
  then Some {| developer := str_or_empty (d !! "summaryDeveloper");
               marketing := str_or_empty (d !! "summaryMarketing") |}
  else None.

(** The pages that the functions of page.tsx lead to, from the first
    mount on an empty database. *)
Inductive reached : Page → Prop :=
  | reached_mount :
      reached {| world := startup initialWorld; openItems := [] |}
  | reached_remount p :
      reached p → reached {| world := remount (world p); openItems := [] |}
  | reached_fetchDiffs p page r now :
      reached p →
      reached {| world := fetchDiffs page r now (world p); openItems := openItems p |}
  | reached_fetchClick p r now :
      reached p →
      reached {| world := handleFetchClick r now (world p); openItems := openItems p |}
  | reached_loadMore p r now :
      reached p →
      reached {| world := handleLoadMoreClick r now (world p); openItems := openItems p |}
  | reached_generate p diff r :
      reached p →
      reached {| world := fetchAIGeneratedDiff diff r (world p); openItems := openItems p |}
  | reached_accordion p values :
      reached p → reached (handleAccordionChange values p).2
  | reached_generateAll p :
      reached p → reached (handleGenerateAllClick p).2
  | reached_clear p confirmClear :
      reached p → reached (handleClearStorage confirmClear p).

(* ===================================================================== *)
(** ** Texts and streams used in statements                              *)
(* ===================================================================== *)

(** The line feed, code 10. *)
Definition newline : ascii := Ascii.ascii_of_nat 10.

(** The arguments object with the marketing field first. *)
Definition swapped_payload (D M : string) : string :=
  String "{" (Regex.mktRe +:+ M +:+ String dquote (String "," (Regex.devRe +:+ D +:+
    String dquote (String "}" EmptyString)))).

(** The arguments object laid out as the prompt of route.ts (line 41)
    shows the response format: one field per line, two spaces in front
    and one space behind the colon. *)
Definition spaced_field (name value : string) : string :=
  String dquote (name +:+ String dquote (String ":" (String " " (String dquote
    (value +:+ String dquote EmptyString))))).

Definition spaced_payload (D M : string) : string :=
  String "{" (String newline ("  " +:+ spaced_field "developer_notes" D +:+
    String "," (String newline ("  " +:+ spaced_field "marketing_notes" M +:+
    String newline (String "}" EmptyString))))).

(** One chunk of the completion stream as route.ts reads it (lines
    89-94): [tool_calls] if the chunk has any, each with the piece of
    [function.arguments] if it has one. *)
Definition CompletionChunk : Type := option (list (option string)).

(** Lines 90-94: what is enqueued for one chunk, if anything. *)
Definition enqueued (chunk : CompletionChunk) : option string :=
  match chunk with
  | Some (call :: _) => Some (or_str (default "" call) "")
  | _ => None
  end.

(** Lines 86-101 for a completion that ends without an error: the
    pieces enqueued before the stream is closed. *)
Definition backend_stream (chunks : list CompletionChunk) : list string :=
  omap enqueued chunks.

(** Lines 184-189 of page.tsx: the message for a response that is not
    ok, from its status and its body if that parses. *)
Definition not_ok_message (status : Z) (errJson : option Obj) : string :=
  let errorMsg := "Failed to fetch AI generated summary (status " +:+ pretty status +:+ ")" in
  match errJson with
  | Some j => or_str (or_str (str_or_empty (j !! "error")) (str_or_empty (j !! "details")))
                errorMsg
  | None => errorMsg
  end.

(** What the page gets for an error response of [POST]: the status and
    the JSON body with the property [error]. *)
Definition fetch_outcome_of_error (status : Z) (error : string) : FetchOutcome :=
  FetchNotOk (not_ok_message status (Some {[ "error" := PStr error ]})).

(* ===================================================================== *)
(** ** Requests in flight together                                       *)
(* ===================================================================== *)

(** The stretches of [fetchAIGeneratedDiff] between two [await]s, each
    of which runs with no other code of the page in between: the start
    up to the [await] of the fetch (lines 153-158), the end of a request
    that got no body (lines 174-181 and 184-194), one pass of the loop
    (lines 206-233), the end of the stream with the call of the final
    [update] (lines 235-247), and what follows that [await] (line 252). *)
Inductive Step :=
  | StepBegin
  | StepFail (logged : list string) (message : string)
  | StepRead (rd : string * Z)
  | StepEnd (ending : StreamEnd) (endTime : Z)
  | StepFinish.

#[global] Instance StreamEnd_eq_dec : EqDecision StreamEnd.
Proof. solve_decision. Defined.

#[global] Instance Step_eq_dec : EqDecision Step.
Proof. solve_decision. Defined.






(* ===================================================================== *)
(** ** The updaters of the loop, as React runs them                      *)
(* ===================================================================== *)

(** Lines 217-233.  [setGeneratedSummaries] does not run the function it
    is given: React runs it when it works off its queue, which is at
    once when nothing else is queued, and otherwise later, possibly
    after further passes of the loop or after the final [update] of
    line 243 has been issued.  When the function runs it reads the
    variables [finalDeveloper] and [finalMarketing] of the call and the
    clock as they are at that moment, and issues its [update] then.
    Every queued function is taken to be run once.  [loop_body] is the
    pass whose function is run before anything else happens. *)
Definition run_updater (id : string) (st : ExtractionState) (now : Z) (w : World) : World :=
  let updated := surfaced st (generatedSummaries (notes w) !! id) in
  let r := db_update id (summary_changes (developer updated) (marketing updated) now) w in
  let w1 := match r.2 with
            | Fulfilled _ => r.1
            | Rejected e => log LogWarn ["Dexie partial save failed"; e] r.1
            end in
  setGeneratedSummaries (<[id := updated]>) w1.

(** What happens while a request reads its stream: a pass of the loop
    up to the call of [setGeneratedSummaries] (lines 206-216), which
    updates the variables and queues the function, or React running the
    oldest function of its queue, at the given time. *)
Inductive Tick :=
  | TickRead (chunk : string)
  | TickReact (now : Z).

#[global] Instance Tick_eq_dec : EqDecision Tick.
Proof. solve_decision. Defined.

(** A request under way: the variables of its call, the number of its
    functions in the queue of React (all of them read the same
    variables, so their number is all there is to the queue), and the
    page. *)
Record Running := {
  run_vars : ExtractionState;
  run_queued : nat;
  run_world : World;
}.

Definition run_tick (id : string) (r : Running) (t : Tick) : Running :=
  match t with
  | TickRead chunk =>
      {| run_vars := extract_step (run_vars r) chunk;
         run_queued := S (run_queued r);
         run_world := run_world r |}
  | TickReact now =>
      match run_queued r with
      | O => r
      | S n => {| run_vars := run_vars r;
                  run_queued := n;
                  run_world := run_updater id (run_vars r) now (run_world r) |}
      end
  end.

(** The chunks read in a list of ticks. *)
Definition chunks_of (ticks : list Tick) : list string :=
  omap (λ t, match t with TickRead chunk => Some chunk | TickReact _ => None end) ticks.

(** Lines 153-234: the request from its start until [read()] reports
    the end or rejects. *)
Definition run_loop (id : string) (ticks : list Tick) (w : World) : Running :=
  foldl (run_tick id)
    {| run_vars := initialExtraction; run_queued := 0; run_world := begin_request id w |}
    ticks.

(** Lines 235-247: the handler of a rejected [read()] and the call of
    the final [update], in one stretch. *)
Definition run_end (id : string) (ending : StreamEnd) (endTime : Z) (r : Running) : Running :=
  {| run_vars := run_vars r;
     run_queued := run_queued r;
     run_world := final_write id (run_vars r) endTime (on_stream_end id ending (run_world r)) |}.

(** Line 252. *)
Definition run_finish (id : string) (r : Running) : Running :=
  {| run_vars := run_vars r;
     run_queued := run_queued r;
     run_world := setLoadingSummaries (<[id := false]>) (run_world r) |}.

(** A request that got a body, with React at work at any point: during
    the loop, while the final [update] is awaited ([between]) and after
    the request has returned ([after]). *)
Definition run_request (diff : DiffItem.t) (ticks : list Tick) (ending : StreamEnd)
    (endTime : Z) (between after : list Z) (w : World) : Running :=
  let id := DiffItem.id diff in
  let r1 := run_end id ending endTime (run_loop id ticks w) in
  let r2 := run_finish id (foldl (run_tick id) r1 (TickReact <$> between)) in
  foldl (run_tick id) r2 (TickReact <$> after).

(** The ticks of a request in which React runs every function right
    after the pass that queued it. *)
Definition eager_ticks (reads : list (string * Z)) : list Tick :=
  reads ≫= λ rd, [TickRead rd.1; TickReact rd.2].

(* ===================================================================== *)
(** * Properties                                                         *)
(* ===================================================================== *)

(** A closed, decidable statement is settled by evaluating its decision
    procedure. *)
Ltac compute_decide := apply (bool_decide_unpack _); vm_compute; exact I.

(** ** Text *)

Section text.
Implicit Types (s t u v lit : string) (c : ascii).

Lemma str_app_cons c s t : String c s +:+ t = String c (s +:+ t).
Proof. reflexivity. Qed.

Lemma str_app_nil_l s : "" +:+ s = s.
Proof. reflexivity. Qed.

Lemma str_app_nil_r s : s +:+ "" = s.
Proof. induction s as [|c s IH]; [done|]. by rewrite str_app_cons, IH. Qed.

Lemma str_app_assoc s t u : (s +:+ t) +:+ u = s +:+ (t +:+ u).
Proof. induction s as [|c s IH]; [done|]. by rewrite !str_app_cons, IH. Qed.

Lemma str_length_app s t : String.length (s +:+ t) = (String.length s + String.length t)%nat.
Proof. induction s as [|c s IH]; [done|]. rewrite str_app_cons. simpl. by rewrite IH. Qed.

Lemma str_prefix_refl s : str_prefix s s.
Proof. exists "". by rewrite str_app_nil_r. Qed.

Lemma str_prefix_trans s t u : str_prefix s t → str_prefix t u → str_prefix s u.
Proof. intros [x ->] [y ->]. exists (x +:+ y). apply str_app_assoc. Qed.

Lemma str_prefix_nil s : str_prefix "" s.
Proof. by exists s. Qed.

Lemma str_prefix_of_nil s : str_prefix s "" → s = "".
Proof. intros [x Hx]. by destruct s. Qed.

Lemma str_prefix_length s t : str_prefix s t → (String.length s ≤ String.length t)%nat.
Proof. intros [x ->]. rewrite str_length_app. lia. Qed.

Lemma or_str_nil_r s : or_str s "" = s.
Proof. by destruct s. Qed.

Lemma or_str_prefix s t : str_prefix t s → or_str s t = s.
Proof. destruct s; [|done]. by intros ->%str_prefix_of_nil. Qed.

Lemma concat_chunks_app (l1 l2 : list string) :
  concat_chunks (l1 ++ l2) = concat_chunks l1 +:+ concat_chunks l2.
Proof.
  induction l1 as [|x l1 IH]; [done|].
  simpl. by rewrite IH, str_app_assoc.
Qed.

Lemma has_dquote_app s t : has_dquote (s +:+ t) = has_dquote s || has_dquote t.
Proof.
  induction s as [|c s IH]; [done|].
  rewrite str_app_cons. simpl. by destruct (Ascii.eqb c dquote).
Qed.
End text.

(** ** The patterns *)

Section regex.
Import Regex.
Implicit Types (s t u v lit : string) (c : ascii).

Lemma not_quote_run_clean s : has_dquote (not_quote_run s) = false.
Proof.
  induction s as [|c s IH]; [done|].
  simpl. destruct (Ascii.eqb c dquote) eqn:E; [done|]. simpl. by rewrite E.
Qed.

(** A run that holds no quote is captured whole, up to the quote behind it. *)
Lemma not_quote_run_stop s t :
  has_dquote s = false → not_quote_run (s +:+ String dquote t) = s.
Proof.
  induction s as [|c s IH]; intros H.
  - done.
  - rewrite str_app_cons. simpl in *. destruct (Ascii.eqb c dquote); [done|].
    by rewrite IH.
Qed.

Lemma not_quote_run_id s : has_dquote s = false → not_quote_run s = s.
Proof.
  induction s as [|c s IH]; [done|].
  simpl. destruct (Ascii.eqb c dquote); [done|]. intros H. by rewrite IH.
Qed.

Lemma not_quote_run_split s : ∃ t, s = not_quote_run s +:+ t ∧ (t = "" ∨ ∃ t', t = String dquote t').
Proof.
  induction s as [|c s (t & IH & Ht)].
  - exists "". auto.
  - simpl. destruct (Ascii.eqb_spec c dquote) as [->|].
    + exists (String dquote s). eauto.
    + exists t. rewrite str_app_cons, <-IH. auto.
Qed.

(** Text appended to the subject can only lengthen the run. *)
Lemma not_quote_run_app s t : str_prefix (not_quote_run s) (not_quote_run (s +:+ t)).
Proof.
  induction s as [|c s [x IH]].
  - apply str_prefix_nil.
  - rewrite str_app_cons. simpl. destruct (Ascii.eqb c dquote).
    + apply str_prefix_refl.
    + exists x. by rewrite IH.
Qed.

Lemma strip_literal_cons a lit b s :
  strip_literal (String a lit) (String b s)
  = if Ascii.eqb a b then strip_literal lit s else None.
Proof. reflexivity. Qed.

Lemma strip_literal_app lit s : strip_literal lit (lit +:+ s) = Some s.
Proof.
  induction lit as [|a lit IH]; [done|].
  by rewrite str_app_cons, strip_literal_cons, Ascii.eqb_refl.
Qed.

Lemma strip_literal_Some lit s r : strip_literal lit s = Some r ↔ s = lit +:+ r.
Proof.
  split; [|intros ->; apply strip_literal_app].
  revert s. induction lit as [|a lit IH]; intros s H.
  - simpl in H. by injection H as ->.
  - destruct s as [|b s]; [done|]. rewrite strip_literal_cons in H.
    destruct (Ascii.eqb_spec a b) as [->|]; [|done].
    rewrite str_app_cons. f_equal. by apply IH.
Qed.

Lemma strip_literal_ext lit s r t :
  strip_literal lit s = Some r → strip_literal lit (s +:+ t) = Some (r +:+ t).
Proof.
  intros ->%strip_literal_Some. rewrite str_app_assoc. apply strip_literal_app.
Qed.

(** A literal that failed on a subject long enough to hold it fails on
    every extension of the subject. *)
Lemma strip_literal_None_ext lit s t :
  strip_literal lit s = None → (String.length lit ≤ String.length s)%nat →
  strip_literal lit (s +:+ t) = None.
Proof.
  revert s. induction lit as [|a lit IH]; intros s H Hlen; [done|].
  destruct s as [|b s]; [simpl in Hlen; lia|].
  rewrite str_app_cons. rewrite strip_literal_cons in *. simpl in Hlen.
  destruct (Ascii.eqb a b); [|done].
  apply IH; [done|lia].
Qed.

Lemma match_capture_here lit s r :
  strip_literal lit s = Some r → match_capture lit s = Some (not_quote_run r).
Proof. intros H. destruct s; simpl; by rewrite H. Qed.

Lemma match_capture_next lit c s :
  strip_literal lit (String c s) = None →
  match_capture lit (String c s) = match_capture lit s.
Proof. intros H. simpl match_capture. by rewrite H. Qed.

Lemma match_capture_nil lit : lit ≠ "" → match_capture lit "" = None.
Proof. by destruct lit. Qed.

Lemma match_capture_length lit s v :
  match_capture lit s = Some v → (String.length lit ≤ String.length s)%nat.
Proof.
  induction s as [|c s IH]; intros H.
  - destruct lit; [simpl; lia|done].
  - destruct (strip_literal lit (String c s)) as [r|] eqn:E.
    + apply strip_literal_Some in E. rewrite E, str_length_app. lia.
    + rewrite match_capture_next in H by done. apply IH in H. simpl. lia.
Qed.

(** The capture of a grown subject extends the capture of the subject:
    the leftmost place where the literal stands does not move. *)
Lemma match_capture_mono lit s t v :
  match_capture lit s = Some v →
  ∃ v', match_capture lit (s +:+ t) = Some v' ∧ str_prefix v v'.
Proof.
  induction s as [|c s IH]; intros H.
  - destruct lit; [|done]. simpl in H. injection H as <-.
    eexists. split; [by apply match_capture_here|]. apply str_prefix_nil.
  - destruct (strip_literal lit (String c s)) as [r|] eqn:E.
    + rewrite (match_capture_here _ _ _ E) in H. injection H as <-.
      eexists. split.
      * apply match_capture_here, strip_literal_ext, E.
      * apply not_quote_run_app.
    + rewrite match_capture_next in H by done.
      rewrite str_app_cons, match_capture_next.
      * by apply IH.
      * rewrite <-str_app_cons. apply strip_literal_None_ext; [done|].
        apply match_capture_length in H. simpl. lia.
Qed.

(** A subject in which no pattern stands yet has no pattern in any of
    its initial segments. *)
Lemma match_capture_None_prefix lit s t :
  match_capture lit (s +:+ t) = None → match_capture lit s = None.
Proof.
  intros H. destruct (match_capture lit s) as [v|] eqn:E; [|done].
  destruct (match_capture_mono _ _ t _ E) as (v' & Hv' & _). congruence.
Qed.

(** Characters other than the quote cannot start either pattern. *)
Lemma match_capture_skip_clean lit s t :
  has_dquote s = false →
  match_capture (String dquote lit) (s +:+ t) = match_capture (String dquote lit) t.
Proof.
  induction s as [|c s IH]; intros H; [done|].
  simpl in H. destruct (Ascii.eqb_spec c dquote) as [|Hc]; [done|].
  rewrite str_app_cons, match_capture_next; [by apply IH|].
  rewrite strip_literal_cons. by destruct (Ascii.eqb_spec dquote c) as [<-|].
Qed.

(** What a capture is: the subject splits into a part in front, the
    literal at its leftmost place, the captured run, and a rest that is
    empty or starts with the quote. *)
Lemma match_capture_Some lit s v :
  match_capture lit s = Some v →
  ∃ pre rest, s = pre +:+ lit +:+ v +:+ rest
    ∧ has_dquote v = false
    ∧ (rest = "" ∨ ∃ rest', rest = String dquote rest')
    ∧ (∀ p1 p2, pre = p1 +:+ p2 → p2 ≠ "" →
         strip_literal lit (p2 +:+ lit +:+ v +:+ rest) = None).
Proof.
  induction s as [|c s IH]; intros H.
  - destruct lit; [|done]. simpl in H. injection H as <-.
    exists "", "". repeat split; auto.
    intros [|??] [|??]; done.
  - destruct (strip_literal lit (String c s)) as [r|] eqn:E.
    + rewrite (match_capture_here _ _ _ E) in H. injection H as <-.
      apply strip_literal_Some in E.
      destruct (not_quote_run_split r) as (t & Hr & Ht).
      exists "", t. rewrite str_app_nil_l, <-Hr.
      repeat split; auto using not_quote_run_clean.
      intros [|??] [|??]; done.
    + rewrite match_capture_next in H by done.
      destruct (IH H) as (pre & rest & -> & ? & ? & Hleft).
      exists (String c pre), rest. rewrite str_app_cons. repeat split; auto.
      intros [|c1 p1] p2 Hp Hne.
      * rewrite str_app_nil_l in Hp. subst p2. by rewrite str_app_cons.
      * rewrite str_app_cons in Hp. injection Hp as -> ->. by eapply Hleft.
Qed.

(** The converse: a literal at its leftmost place, then a run without
    quote that ends the subject or is followed by the quote. *)
Lemma match_capture_intro lit pre v rest :
  has_dquote v = false →
  (rest = "" ∨ ∃ rest', rest = String dquote rest') →
  (∀ p1 p2, pre = p1 +:+ p2 → p2 ≠ "" →
     strip_literal lit (p2 +:+ lit +:+ v +:+ rest) = None) →
  match_capture lit (pre +:+ lit +:+ v +:+ rest) = Some v.
Proof.
  intros Hv Hrest. induction pre as [|c pre IH]; intros Hleft.
  - rewrite str_app_nil_l. erewrite match_capture_here by apply strip_literal_app.
    f_equal. destruct Hrest as [->|[r ->]].
    + rewrite str_app_nil_r. by apply not_quote_run_id.
    + by apply not_quote_run_stop.
  - rewrite str_app_cons, match_capture_next.
    + apply IH. intros p1 p2 -> Hne. by apply (Hleft (String c p1) p2).
    + rewrite <-str_app_cons. by apply (Hleft "" (String c pre)).
Qed.
End regex.

(** ** The patterns on the complete payload *)

Section payload.
Import Regex.

Lemma devRe_after_brace X :
  match_capture devRe (String "{" (devRe +:+ X)) = Some (not_quote_run X).
Proof. reflexivity. Qed.

(** No character of the developer field's opener starts the marketing
    pattern, up to the quote that opens the value. *)
Lemma mktRe_over_dev_opener X :
  match_capture mktRe (String "{" (devRe +:+ X)) = match_capture mktRe (String dquote X).
Proof. reflexivity. Qed.

Lemma mktRe_at_own_opener X :
  match_capture mktRe (String dquote (String "," (mktRe +:+ X))) = Some (not_quote_run X).
Proof. reflexivity. Qed.

(** The quote that opens the developer value does not start the
    marketing pattern either: the value holds no quote, so the literal
    would have to end in the value's closing quote, which a comma
    follows and not a colon. *)
Lemma mktRe_not_at_value D X :
  has_dquote D = false →
  strip_literal mktRe (String dquote (D +:+ String dquote (String "," X))) = None.
Proof.
  intros HD.
  destruct (strip_literal mktRe _) as [r|] eqn:E; [exfalso|done].
  apply strip_literal_Some in E.
  change (mktRe +:+ r)
    with (String dquote ("marketing_notes" +:+ String dquote (String ":" (String dquote r)))) in E.
  injection E as E.
  assert (D = "marketing_notes") as ->.
  { apply (f_equal not_quote_run) in E.
    by rewrite !not_quote_run_stop in E. }
  by apply (inj (String.append _)) in E.
Qed.

Lemma devRe_on_payload D M :
  has_dquote D = false → match_capture devRe (payload D M) = Some D.
Proof.
  intros HD. unfold payload.
  by rewrite devRe_after_brace, not_quote_run_stop.
Qed.

Lemma mktRe_on_payload D M :
  has_dquote D = false → has_dquote M = false →
  match_capture mktRe (payload D M) = Some M.
Proof.
  intros HD HM. unfold payload.
  rewrite mktRe_over_dev_opener.
  rewrite match_capture_next by by apply mktRe_not_at_value.
  change mktRe with (String dquote (String.append "marketing_notes"
    (String dquote (String ":" (String dquote ""))))) at 1.
  rewrite match_capture_skip_clean by done.
  by rewrite mktRe_at_own_opener, not_quote_run_stop.
Qed.
End payload.

(** ** The loop over the local variables *)

Section extraction.
Import Regex.
Implicit Types (st : ExtractionState) (chunks : list string).

Lemma accumulated_foldl st chunks :
  accumulated (foldl extract_step st chunks) = accumulated st +:+ concat_chunks chunks.
Proof.
  revert st. induction chunks as [|c chunks IH]; intros st; simpl.
  - by rewrite str_app_nil_r.
  - rewrite IH. unfold extract_step; simpl. apply str_app_assoc.
Qed.

(** The loop ignores the world: its variables after a list of reads
    are those of the loop over the chunks alone. *)
Lemma read_loop_extraction id reads sw :
  (read_loop id reads sw).1 = foldl extract_step sw.1 reads.*1.
Proof.
  revert sw. induction reads as [|rd reads IH]; intros sw; [done|].
  unfold read_loop in *. simpl. by rewrite IH.
Qed.

(** In a reachable state each best value is the capture of its pattern
    on the buffer, and empty when the pattern does not stand there. *)
Lemma reachable_best st :
  reachable st →
  finalDeveloper st = default "" (match_capture devRe (accumulated st))
  ∧ finalMarketing st = default "" (match_capture mktRe (accumulated st)).
Proof.
  intros [chunks ->]. induction chunks as [|c chunks IH] using rev_ind; [done|].
  rewrite foldl_snoc. destruct IH as [IHd IHm].
  set (st := foldl extract_step initialExtraction chunks) in *.
  unfold extract_step; simpl. split.
  - destruct (match_capture devRe (accumulated st +:+ c)) eqn:E; [done|]. simpl.
    by rewrite IHd, (match_capture_None_prefix _ _ _ E).
  - destruct (match_capture mktRe (accumulated st +:+ c)) eqn:E; [done|]. simpl.
    by rewrite IHm, (match_capture_None_prefix _ _ _ E).
Qed.

Lemma reachable_step st chunk : reachable st → reachable (extract_step st chunk).
Proof. intros [chunks ->]. exists (chunks ++ [chunk]). by rewrite foldl_snoc. Qed.

Lemma keep_prefix lit acc chunk :
  str_prefix (default "" (match_capture lit acc))
    (from_option id (default "" (match_capture lit acc)) (match_capture lit (acc +:+ chunk))).
Proof.
  destruct (match_capture lit acc) as [v|] eqn:E; simpl.
  - destruct (match_capture_mono _ _ chunk _ E) as (v' & -> & Hv'). done.
  - apply str_prefix_nil.
Qed.

(** From a reachable state, one more chunk extends both best values. *)
Lemma extract_step_extends st chunk :
  reachable st →
  str_prefix (finalDeveloper st) (finalDeveloper (extract_step st chunk))
  ∧ str_prefix (finalMarketing st) (finalMarketing (extract_step st chunk)).
Proof.
  intros [Hd Hm]%reachable_best. unfold extract_step; simpl.
  rewrite Hd, Hm. split; apply keep_prefix.
Qed.
End extraction.

(** ** The table *)

Section table.
Implicit Types (t : gmap string Obj) (o changes : Obj) (k key : string).

Lemma update_fulfilled key changes t : ∃ n, (Dexie.update key changes t).2 = Fulfilled n.
Proof. unfold Dexie.update. destruct (t !! key); simpl; eauto. Qed.

Lemma update_present key changes t o :
  t !! key = Some o → (Dexie.update key changes t).1 = <[key := changes ∪ o]> t.
Proof. intros H. unfold Dexie.update. by rewrite H. Qed.

Lemma update_absent key changes t :
  t !! key = None → Dexie.update key changes t = (t, Fulfilled 0%nat).
Proof. intros H. unfold Dexie.update. by rewrite H. Qed.

Lemma update_lookup key changes t :
  (Dexie.update key changes t).1 !! key = (changes ∪.) <$> t !! key.
Proof.
  unfold Dexie.update. destruct (t !! key) as [o|] eqn:E; simpl.
  - by rewrite lookup_insert_eq.
  - by rewrite E.
Qed.

Lemma update_lookup_ne key changes t k :
  key ≠ k → (Dexie.update key changes t).1 !! k = t !! k.
Proof.
  intros Hne. unfold Dexie.update. destruct (t !! key); simpl; [|done].
  by rewrite lookup_insert_ne.
Qed.

Lemma toArray_elem t o : o ∈ Dexie.toArray t ↔ ∃ k, t !! k = Some o.
Proof.
  unfold Dexie.toArray. rewrite list_elem_of_fmap. split.
  - intros ([k o'] & -> & H%elem_of_map_to_list). eauto.
  - intros [k H]. exists (k, o). by rewrite elem_of_map_to_list.
Qed.

Lemma put_lookup t o k :
  Dexie.put t o !! k = if decide (Dexie.key_of o = Some k) then Some o else t !! k.
Proof.
  unfold Dexie.put. destruct (Dexie.key_of o) as [k'|]; case_decide; simplify_eq.
  - apply lookup_insert_eq.
  - apply lookup_insert_ne. congruence.
  - done.
Qed.

(** A key that no object of the list has is left alone. *)
Lemma foldl_put_other items t k :
  (∀ o, o ∈ items → Dexie.key_of o ≠ Some k) → foldl Dexie.put t items !! k = t !! k.
Proof.
  induction items as [|x items IH] using rev_ind; intros H; [done|].
  rewrite foldl_snoc, put_lookup. case_decide as Hx.
  - destruct (H x); [set_solver|done].
  - apply IH. intros o Ho. apply H. set_solver.
Qed.

(** An object that is the only one of the list with its key is what is
    stored under that key. *)
Lemma foldl_put_stored items t o k :
  o ∈ items → Dexie.key_of o = Some k →
  (∀ o', o' ∈ items → Dexie.key_of o' = Some k → o' = o) →
  foldl Dexie.put t items !! k = Some o.
Proof.
  induction items as [|x items IH] using rev_ind; intros Ho Hk Huniq; [set_solver|].
  rewrite foldl_snoc, put_lookup. case_decide as Hx.
  - f_equal. apply Huniq; [|done].
    apply elem_of_app. right. by apply list_elem_of_singleton.
  - assert (o ∈ items) as Hin.
    { apply elem_of_app in Ho. destruct Ho as [Hl|Hr]; [done|].
      apply list_elem_of_singleton in Hr. congruence. }
    apply IH; [done|done|].
    intros o' Ho' Hk'. apply Huniq; [|done]. apply elem_of_app. auto.
Qed.

(** Whatever is stored after the puts was put or was there before. *)
Lemma foldl_put_origin items t o k :
  foldl Dexie.put t items !! k = Some o → o ∈ items ∨ t !! k = Some o.
Proof.
  induction items as [|x items IH] using rev_ind; [auto|].
  rewrite foldl_snoc, put_lookup. case_decide.
  - intros [= ->]. left. set_solver.
  - intros [?|?]%IH; [left; set_solver|by right].
Qed.

Lemma all_keyed items :
  Forall (λ o, is_Some (Dexie.key_of o)) items →
  forallb (λ o, bool_decide (is_Some (Dexie.key_of o))) items = true.
Proof.
  induction 1 as [|o items Ho _ IH]; [done|].
  simpl. by rewrite IH, bool_decide_true.
Qed.

Lemma NoDup_keys_unique items o o' k :
  NoDup (Dexie.key_of <$> items) → o ∈ items → o' ∈ items →
  Dexie.key_of o = Some k → Dexie.key_of o' = Some k → o' = o.
Proof.
  intros Hnd (i & Hi)%list_elem_of_lookup (j & Hj)%list_elem_of_lookup Hk Hk'.
  assert (i = j) as ->; [|congruence].
  eapply NoDup_lookup; [exact Hnd| |]; rewrite list_lookup_fmap.
  - by rewrite Hi.
  - rewrite Hj. simpl. congruence.
Qed.
End table.

(** ** One generation request *)

Section request.
Import Regex.
Implicit Types (w : World) (st : ExtractionState) (id : string).

Lemma summary_changes_dev dev mkt now :
  summary_changes dev mkt now !! "summaryDeveloper" = Some (PStr dev).
Proof. reflexivity. Qed.

Lemma summary_changes_mkt dev mkt now :
  summary_changes dev mkt now !! "summaryMarketing" = Some (PStr mkt).
Proof. reflexivity. Qed.

Lemma summary_changes_time dev mkt now :
  summary_changes dev mkt now !! "summaryUpdatedAt" = Some (PNum now).
Proof. reflexivity. Qed.

Lemma summary_changes_other dev mkt now f :
  f ≠ "summaryDeveloper" → f ≠ "summaryMarketing" → f ≠ "summaryUpdatedAt" →
  summary_changes dev mkt now !! f = None.
Proof.
  intros. unfold summary_changes.
  rewrite !lookup_insert_ne by done. by apply lookup_singleton_ne.
Qed.

(** A record after the summary properties are merged into it. *)
Lemma merged_lookup dev mkt now (o : Obj) :
  (summary_changes dev mkt now ∪ o) !! "summaryDeveloper" = Some (PStr dev)
  ∧ (summary_changes dev mkt now ∪ o) !! "summaryMarketing" = Some (PStr mkt)
  ∧ (summary_changes dev mkt now ∪ o) !! "summaryUpdatedAt" = Some (PNum now)
  ∧ ∀ f, f ≠ "summaryDeveloper" → f ≠ "summaryMarketing" → f ≠ "summaryUpdatedAt" →
         (summary_changes dev mkt now ∪ o) !! f = o !! f.
Proof.
  repeat split; try (by rewrite lookup_union_l' by (by eexists)).
  intros f ???. by rewrite lookup_union_r by by apply summary_changes_other.
Qed.

Lemma db_update_world key changes w :
  (db_update key changes w).1
  = with_db (λ d, {| db_diffs := (Dexie.update key changes (db_diffs d)).1;
                     db_calls := db_calls d ++ [DbUpdate key changes] |}) w.
Proof. reflexivity. Qed.

Lemma db_update_outcome key changes w : ∃ n, (db_update key changes w).2 = Fulfilled n.
Proof. apply update_fulfilled. Qed.

(** The handlers of a rejected [update] never run on this table. *)
Lemma loop_body_eq id sw rd :
  loop_body id sw rd =
    let st := extract_step sw.1 rd.1 in
    let updated := surfaced st (generatedSummaries (notes sw.2) !! id) in
    (st, setGeneratedSummaries (<[id := updated]>)
           (db_update id (summary_changes (developer updated) (marketing updated) rd.2) sw.2).1).
Proof.
  unfold loop_body. cbv zeta. set (ch := summary_changes _ _ _).
  by destruct (db_update_outcome id ch sw.2) as [n ->].
Qed.

Lemma final_write_eq id st endTime w :
  final_write id st endTime w
  = (db_update id (summary_changes (finalDeveloper st) (finalMarketing st) endTime) w).1.
Proof.
  unfold final_write. cbv zeta. set (ch := summary_changes _ _ _).
  by destruct (db_update_outcome id ch w) as [n ->].
Qed.

Lemma read_loop_snoc id reads rd sw :
  read_loop id (reads ++ [rd]) sw = loop_body id (read_loop id reads sw) rd.
Proof. apply foldl_snoc. Qed.

Lemma read_loop_reachable id reads w :
  reachable (read_loop id reads (initialExtraction, w)).1.
Proof. exists reads.*1. by rewrite read_loop_extraction. Qed.

(** What the page shows for the request's id is, all through the
    request, the pair of best values of the loop. *)
Lemma surfaced_is_best id reads w :
  let sw := read_loop id reads (initialExtraction, begin_request id w) in
  generatedSummaries (notes sw.2) !! id
  = Some {| developer := finalDeveloper sw.1; marketing := finalMarketing sw.1 |}.
Proof.
  induction reads as [|rd reads IH] using rev_ind; simpl.
  - apply lookup_insert_eq.
  - simpl in IH. rewrite read_loop_snoc, loop_body_eq. simpl.
    rewrite lookup_insert_eq, IH. simpl. f_equal.
    destruct (extract_step_extends (read_loop id reads (initialExtraction, begin_request id w)).1
                rd.1 (read_loop_reachable _ _ _)) as [Hd Hm].
    unfold surfaced; simpl. rewrite !or_str_nil_r.
    f_equal; by apply or_str_prefix.
Qed.

(** What the loop leaves alone. *)
Lemma read_loop_frame id reads sw :
  let sw' := read_loop id reads sw in
  console sw'.2 = console sw.2
  ∧ listing sw'.2 = listing sw.2
  ∧ summaryErrors (notes sw'.2) = summaryErrors (notes sw.2)
  ∧ loadingSummaries (notes sw'.2) = loadingSummaries (notes sw.2)
  ∧ (∀ k, k ≠ id → db_diffs (db sw'.2) !! k = db_diffs (db sw.2) !! k)
  ∧ (∀ k, k ≠ id →
       generatedSummaries (notes sw'.2) !! k = generatedSummaries (notes sw.2) !! k).
Proof.
  induction reads as [|rd reads IH] using rev_ind; [done|].
  cbv zeta in *. rewrite read_loop_snoc, loop_body_eq. cbv zeta. simpl.
  destruct IH as (-> & -> & -> & -> & IHd & IHg). repeat split; try done.
  - intros k Hk. by rewrite update_lookup_ne, IHd.
  - intros k Hk. by rewrite lookup_insert_ne, IHg.
Qed.

(** On a table without a record for the id the loop writes nothing. *)
Lemma read_loop_absent id reads sw :
  db_diffs (db sw.2) !! id = None →
  db_diffs (db (read_loop id reads sw).2) = db_diffs (db sw.2).
Proof.
  intros Hnone. induction reads as [|rd reads IH] using rev_ind; [done|].
  rewrite read_loop_snoc, loop_body_eq. cbv zeta. simpl.
  rewrite IH. by rewrite update_absent.
Qed.

(** The writes the loop issues: one [update] per chunk, each for the
    request's id and each carrying the pair of best values after that
    chunk. *)
Lemma read_loop_calls id reads w :
  let sw := read_loop id reads (initialExtraction, begin_request id w) in
  ∃ calls, db_calls (db sw.2) = db_calls (db w) ++ calls
    ∧ length calls = length reads
    ∧ Forall (λ c, ∃ dev mkt now, c = DbUpdate id (summary_changes dev mkt now)) calls.
Proof.
  induction reads as [|rd reads IH] using rev_ind; cbv zeta in *.
  - exists []. by rewrite app_nil_r.
  - destruct IH as (calls & Hcalls & Hlen & Hall).
    rewrite read_loop_snoc, loop_body_eq. cbv zeta. simpl. rewrite Hcalls.
    eexists (calls ++ [_]). split; [by rewrite (assoc (++))|].
    split; [rewrite !length_app; simpl; lia|].
    apply Forall_app. split; [done|]. apply Forall_singleton. eauto.
Qed.

(** The record of the id after a pass of the loop: the record before
    it with the pair of best values and the time merged in. *)
Lemma loop_body_record id reads rd w :
  let sw := read_loop id reads (initialExtraction, begin_request id w) in
  let sw' := loop_body id sw rd in
  db_diffs (db sw'.2) !! id
  = (summary_changes (finalDeveloper sw'.1) (finalMarketing sw'.1) rd.2 ∪.)
      <$> db_diffs (db sw.2) !! id.
Proof.
  cbv zeta.
  pose proof (surfaced_is_best id (reads ++ [rd]) w) as He. cbv zeta in He.
  rewrite read_loop_snoc in He. revert He.
  rewrite loop_body_eq. cbv zeta. simpl. rewrite lookup_insert_eq.
  intros [= -> ->]. apply update_lookup.
Qed.

(** The whole request when a body is streamed. *)
Lemma fetch_body_eq (diff : DiffItem.t) reads ending endTime w :
  fetchAIGeneratedDiff diff (FetchBody reads ending endTime) w =
    let id := DiffItem.id diff in
    let sw := stream_phase id reads ending (begin_request id w) in
    setLoadingSummaries (<[id := false]>)
      (db_update id (summary_changes (finalDeveloper sw.1) (finalMarketing sw.1) endTime) sw.2).1.
Proof. unfold fetchAIGeneratedDiff. cbv zeta. by rewrite final_write_eq. Qed.

Lemma on_stream_end_db id ending w : db (on_stream_end id ending w) = db w.
Proof. by destruct ending. Qed.
End request.

(** ** The updaters of the loop, as React runs them *)

Section queue.
Implicit Types (r : Running) (t : Tick) (w : World) (id : string) (st : ExtractionState).

Lemma run_updater_eq id st now w :
  run_updater id st now w =
    let updated := surfaced st (generatedSummaries (notes w) !! id) in
    setGeneratedSummaries (<[id := updated]>)
      (db_update id (summary_changes (developer updated) (marketing updated) now) w).1.
Proof.
  unfold run_updater. cbv zeta. set (ch := summary_changes _ _ _).
  by destruct (db_update_outcome id ch w) as [n ->].
Qed.

(** A pass of [loop_body] is a pass of the loop followed at once by its
    function. *)
Lemma loop_body_run_updater id (sw : ExtractionState * World) (rd : string * Z) :
  loop_body id sw rd
  = (extract_step sw.1 rd.1, run_updater id (extract_step sw.1 rd.1) rd.2 sw.2).
Proof. reflexivity. Qed.

(** What the function shows when the entry of the id lags behind the
    variables: the variables. *)
Lemma surfaced_catches_up st (e : Summary) :
  str_prefix (developer e) (finalDeveloper st) →
  str_prefix (marketing e) (finalMarketing st) →
  surfaced st (Some e) = {| developer := finalDeveloper st; marketing := finalMarketing st |}.
Proof.
  intros Hd Hm. unfold surfaced. simpl. rewrite !or_str_nil_r.
  by rewrite (or_str_prefix _ _ Hd), (or_str_prefix _ _ Hm).
Qed.

Lemma run_updater_frame id st now w :
  let w' := run_updater id st now w in
  console w' = console w
  ∧ listing w' = listing w
  ∧ summaryErrors (notes w') = summaryErrors (notes w)
  ∧ loadingSummaries (notes w') = loadingSummaries (notes w)
  ∧ (∀ k, k ≠ id → db_diffs (db w') !! k = db_diffs (db w) !! k)
  ∧ (∀ k, k ≠ id → generatedSummaries (notes w') !! k = generatedSummaries (notes w) !! k).
Proof.
  cbv zeta. rewrite run_updater_eq. cbv zeta. simpl. repeat split; try done.
  - intros k Hk. by apply update_lookup_ne.
  - intros k Hk. by rewrite lookup_insert_ne.
Qed.

(** The function run on an entry that lags behind the variables: the
    entry and the write carry the variables. *)
Lemma run_updater_own id st now w (e : Summary) :
  generatedSummaries (notes w) !! id = Some e →
  str_prefix (developer e) (finalDeveloper st) →
  str_prefix (marketing e) (finalMarketing st) →
  let w' := run_updater id st now w in
  let changes := summary_changes (finalDeveloper st) (finalMarketing st) now in
  generatedSummaries (notes w') !! id
    = Some {| developer := finalDeveloper st; marketing := finalMarketing st |}
  ∧ db_calls (db w') = db_calls (db w) ++ [DbUpdate id changes]
  ∧ db_diffs (db w') !! id = (changes ∪.) <$> db_diffs (db w) !! id.
Proof.
  intros He Hd Hm. cbv zeta. rewrite run_updater_eq. cbv zeta.
  rewrite He, (surfaced_catches_up _ _ Hd Hm). simpl.
  split; [apply lookup_insert_eq|]. split; [done|]. apply update_lookup.
Qed.

Lemma chunks_of_snoc ticks t :
  chunks_of (ticks ++ [t])
  = chunks_of ticks ++ match t with TickRead chunk => [chunk] | TickReact _ => [] end.
Proof. unfold chunks_of. rewrite omap_app. by destruct t. Qed.

(** The variables of the call are those of the loop over the chunks
    read, whenever React did its work. *)
Lemma run_ticks_vars id ticks r :
  run_vars (foldl (run_tick id) r ticks) = foldl extract_step (run_vars r) (chunks_of ticks).
Proof.
  induction ticks as [|t ticks IH] using rev_ind; [done|].
  rewrite foldl_snoc, chunks_of_snoc. destruct t as [chunk|now]; simpl.
  - by rewrite foldl_snoc, IH.
  - rewrite app_nil_r, <-IH. by destruct (run_queued _).
Qed.

Lemma run_loop_reachable id ticks w : reachable (run_vars (run_loop id ticks w)).
Proof. exists (chunks_of ticks). unfold run_loop. by rewrite run_ticks_vars. Qed.

Lemma run_ticks_frame id ticks r :
  let r' := foldl (run_tick id) r ticks in
  console (run_world r') = console (run_world r)
  ∧ listing (run_world r') = listing (run_world r)
  ∧ summaryErrors (notes (run_world r')) = summaryErrors (notes (run_world r))
  ∧ loadingSummaries (notes (run_world r')) = loadingSummaries (notes (run_world r))
  ∧ (∀ k, k ≠ id → db_diffs (db (run_world r')) !! k = db_diffs (db (run_world r)) !! k)
  ∧ (∀ k, k ≠ id → generatedSummaries (notes (run_world r')) !! k
                   = generatedSummaries (notes (run_world r)) !! k).
Proof.
  cbv zeta. induction ticks as [|t ticks IH] using rev_ind; [done|].
  rewrite foldl_snoc. destruct IH as (Hc & Hl & He & Hs & Hd & Hg).
  set (r1 := foldl (run_tick id) r ticks) in *.
  destruct t as [chunk|now]; [done|].
  unfold run_tick. destruct (run_queued r1); [done|]. cbn [run_world].
  destruct (run_updater_frame id (run_vars r1) now (run_world r1))
    as (Hc' & Hl' & He' & Hs' & Hd' & Hg').
  rewrite Hc', Hl', He', Hs', Hc, Hl, He, Hs. repeat split; try done.
  - intros k Hk. by rewrite Hd', Hd.
  - intros k Hk. by rewrite Hg', Hg.
Qed.

(** The state of a request while it reads.  The entry of the id lags
    behind the variables of the call and has caught up when nothing is
    queued; every write so far is an [update] of the id with both
    notes; there are as many writes and queued functions as chunks were
    read; and once a write was made, a stored record of the id holds the
    notes of the entry. *)
Lemma run_loop_inv id ticks w :
  let r := run_loop id ticks w in
  ∃ (e : Summary) calls,
    generatedSummaries (notes (run_world r)) !! id = Some e
    ∧ str_prefix (developer e) (finalDeveloper (run_vars r))
    ∧ str_prefix (marketing e) (finalMarketing (run_vars r))
    ∧ (run_queued r = 0%nat →
       e = {| developer := finalDeveloper (run_vars r);
              marketing := finalMarketing (run_vars r) |})
    ∧ db_calls (db (run_world r)) = db_calls (db w) ++ calls
    ∧ (length calls + run_queued r)%nat = length (chunks_of ticks)
    ∧ Forall (λ c, ∃ dev mkt now, c = DbUpdate id (summary_changes dev mkt now)) calls
    ∧ (calls ≠ [] → ∀ o, db_diffs (db (run_world r)) !! id = Some o →
         o !! "summaryDeveloper" = Some (PStr (developer e))
         ∧ o !! "summaryMarketing" = Some (PStr (marketing e))).
Proof.
  cbv zeta. induction ticks as [|t ticks IH] using rev_ind.
  { exists {| developer := ""; marketing := "" |}, []. simpl.
    rewrite lookup_insert_eq, app_nil_r.
    repeat split; try done; apply str_prefix_nil. }
  destruct IH as (e & calls & He & Hd & Hm & Hq & Hcalls & Hlen & Hall & Hrec).
  pose proof (run_loop_reachable id ticks w) as Hreach.
  unfold run_loop in *. rewrite foldl_snoc, chunks_of_snoc.
  set (r := foldl (run_tick id) _ ticks) in *.
  destruct t as [chunk|now].
  - exists e, calls. simpl.
    destruct (extract_step_extends (run_vars r) chunk Hreach) as [Hd' Hm'].
    split; [done|]. split; [by eapply str_prefix_trans|].
    split; [by eapply str_prefix_trans|]. split; [done|]. split; [done|].
    split; [rewrite length_app; simpl; lia|]. done.
  - rewrite app_nil_r. unfold run_tick. destruct (run_queued r) as [|n] eqn:Eq.
    { exists e, calls. rewrite Eq. done. }
    destruct (run_updater_own id (run_vars r) now (run_world r) e He Hd Hm)
      as (He' & Hcalls' & Hrec').
    cbn [run_vars run_queued run_world].
    eexists _, (calls ++ [_]). split; [exact He'|]. cbn [developer marketing].
    split; [apply str_prefix_refl|]. split; [apply str_prefix_refl|].
    split; [done|]. split; [by rewrite Hcalls', Hcalls, (assoc (++))|].
    split; [rewrite length_app; simpl; lia|]. split.
    + apply Forall_app. split; [done|]. apply Forall_singleton. eauto.
    + intros _ o. rewrite Hrec'. destruct (db_diffs _ !! id) as [o0|]; [|done].
      simpl. intros [= <-]. split; by rewrite lookup_union_l'.
Qed.

Lemma run_updater_loading id st now (f : gmap string bool → gmap string bool) w :
  run_updater id st now (setLoadingSummaries f w)
  = setLoadingSummaries f (run_updater id st now w).
Proof. rewrite !run_updater_eq. reflexivity. Qed.

Lemma run_finish_ticks id ticks r :
  foldl (run_tick id) (run_finish id r) ticks = run_finish id (foldl (run_tick id) r ticks).
Proof.
  induction ticks as [|t ticks IH] using rev_ind; [done|].
  rewrite !foldl_snoc, IH. set (r1 := foldl (run_tick id) r ticks).
  destruct t as [chunk|now]; [done|].
  unfold run_tick, run_finish. cbn [run_queued run_vars run_world].
  destruct (run_queued r1) as [|n] eqn:Eq.
  - by rewrite Eq.
  - cbn [run_queued run_vars run_world]. by rewrite run_updater_loading.
Qed.

(** Line 252 touches the spinner only, which no function of the queue
    reads or writes: a request is the loop, the end of the stream with
    the final [update], the functions React runs from then on, and the
    spinner switched off. *)
Lemma run_request_eq diff ticks ending endTime (between after : list Z) w :
  run_request diff ticks ending endTime between after w
  = run_finish (DiffItem.id diff)
      (foldl (run_tick (DiffItem.id diff))
         (run_end (DiffItem.id diff) ending endTime (run_loop (DiffItem.id diff) ticks w))
         (TickReact <$> (between ++ after))).
Proof.
  unfold run_request. cbv zeta. by rewrite run_finish_ticks, fmap_app, foldl_app.
Qed.

(** A later merge of the summary properties hides an earlier one. *)
Lemma merged_twice dev mkt now dev' mkt' now' (o : Obj) :
  summary_changes dev mkt now ∪ (summary_changes dev' mkt' now' ∪ o)
  = summary_changes dev mkt now ∪ o.
Proof.
  apply map_eq. intros f.
  destruct (decide (f = "summaryDeveloper")) as [->|?];
    [by rewrite !(lookup_union_l' (summary_changes dev mkt now))|].
  destruct (decide (f = "summaryMarketing")) as [->|?];
    [by rewrite !(lookup_union_l' (summary_changes dev mkt now))|].
  destruct (decide (f = "summaryUpdatedAt")) as [->|?];
    [by rewrite !(lookup_union_l' (summary_changes dev mkt now))|].
  by rewrite !lookup_union_r by by apply summary_changes_other.
Qed.

Lemma run_tick_react_0 id r (now : Z) :
  run_queued r = 0%nat → run_tick id r (TickReact now) = r.
Proof. intros H. unfold run_tick. by rewrite H. Qed.

Lemma run_tick_react_S id r (now : Z) n :
  run_queued r = S n →
  run_tick id r (TickReact now)
  = {| run_vars := run_vars r; run_queued := n;
       run_world := run_updater id (run_vars r) now (run_world r) |}.
Proof. intros H. unfold run_tick. by rewrite H. Qed.

(** React working off the queue when the loop is over: the variables
    stay, and every function it runs writes their values. *)
Lemma run_react id (times : list Z) r (e : Summary) :
  generatedSummaries (notes (run_world r)) !! id = Some e →
  str_prefix (developer e) (finalDeveloper (run_vars r)) →
  str_prefix (marketing e) (finalMarketing (run_vars r)) →
  let dev := finalDeveloper (run_vars r) in
  let mkt := finalMarketing (run_vars r) in
  let r' := foldl (run_tick id) r (TickReact <$> times) in
  let ran := take (run_queued r) times in
  run_vars r' = run_vars r
  ∧ run_queued r' = (run_queued r - length times)%nat
  ∧ db_calls (db (run_world r'))
    = db_calls (db (run_world r))
      ++ ((λ now : Z, DbUpdate id (summary_changes dev mkt now)) <$> ran)
  ∧ generatedSummaries (notes (run_world r')) !! id
    = Some (match ran with [] => e | _ :: _ => {| developer := dev; marketing := mkt |} end)
  ∧ (∀ (t0 : Z) o, db_diffs (db (run_world r)) !! id = Some (summary_changes dev mkt t0 ∪ o) →
       db_diffs (db (run_world r')) !! id
       = Some (summary_changes dev mkt (default t0 (last ran)) ∪ o)).
Proof.
  cbv zeta. revert r e. induction times as [|t times IH]; intros r e He Hd Hm.
  { rewrite take_nil, fmap_nil, app_nil_r. cbn [foldl length last default].
    split; [reflexivity|]. split; [lia|]. split; [reflexivity|]. split; [exact He|].
    intros t0 o Ho. exact Ho. }
  rewrite fmap_cons. cbn [foldl].
  destruct (run_queued r) as [|n] eqn:Eq.
  - rewrite (run_tick_react_0 id r t Eq).
    destruct (IH r e He Hd Hm) as (Hv & Hq & Hc & Hg & Hr).
    rewrite Eq in Hq, Hc, Hg, Hr. rewrite take_0 in Hc, Hg, Hr. rewrite !take_0.
    split; [exact Hv|]. split; [rewrite Hq; reflexivity|].
    split; [exact Hc|]. split; [exact Hg|exact Hr].
  - rewrite (run_tick_react_S id r t n Eq).
    destruct (run_updater_own id (run_vars r) t (run_world r) e He Hd Hm)
      as (He' & Hcalls' & Hrec').
    set (r1 := {| run_vars := run_vars r; run_queued := n;
                  run_world := run_updater id (run_vars r) t (run_world r) |}).
    destruct (IH r1 _ He' (str_prefix_refl _) (str_prefix_refl _))
      as (Hv & Hq & Hc & Hg & Hr).
    change (run_vars r1) with (run_vars r) in Hv, Hc, Hg, Hr.
    change (run_queued r1) with n in Hq, Hc, Hg, Hr.
    change (run_world r1) with (run_updater id (run_vars r) t (run_world r)) in Hc, Hr.
    rewrite firstn_cons, fmap_cons.
    split; [exact Hv|]. split; [rewrite Hq; reflexivity|].
    split; [rewrite Hc, Hcalls', <-(assoc (++)); reflexivity|].
    split.
    { rewrite Hg. by destruct (take n times). }
    intros t0 o Ho. rewrite (Hr t o).
    + replace (default t0 (last (t :: take n times)))
        with (default t (last (take n times))); [reflexivity|].
      destruct (take n times) as [|x l]; [reflexivity|].
      change (last (t :: x :: l)) with (last (x :: l)).
      destruct (last (x :: l)) eqn:El; [reflexivity|]. by apply last_None in El.
    + rewrite Hrec', Ho. cbn [fmap option_fmap option_map].
      rewrite merged_twice. reflexivity.
Qed.

(** The request in which React runs every function right after the
    pass that queued it is [fetchAIGeneratedDiff] as modelled above. *)
Lemma eager_ticks_loop id reads w :
  run_loop id (eager_ticks reads) w
  = {| run_vars := (read_loop id reads (initialExtraction, begin_request id w)).1;
       run_queued := 0;
       run_world := (read_loop id reads (initialExtraction, begin_request id w)).2 |}.
Proof.
  induction reads as [|rd reads IH] using rev_ind; [done|].
  unfold run_loop, eager_ticks in *. rewrite bind_app, foldl_app, IH, read_loop_snoc.
  by rewrite loop_body_run_updater.
Qed.

Lemma eager_run diff reads ending endTime w :
  run_world (run_request diff (eager_ticks reads) ending endTime [] [] w)
  = fetchAIGeneratedDiff diff (FetchBody reads ending endTime) w.
Proof. unfold run_request. cbv zeta. by rewrite eager_ticks_loop. Qed.
End queue.

(* ===================================================================== *)
(** * The claims                                                         *)
(* ===================================================================== *)

Section claims_extractor.
Import Regex.

(** C1.  For values [D] and [M] that hold no double quote, and for
    every way of cutting the payload built from them into chunks, the
    loop that is fed the chunks in order ends with [D] as the developer
    value and [M] as the marketing value; the write that follows the
    loop sends exactly these two values to the table. *)
Theorem payload_extracted_at_any_split (D M : string) (diff : DiffItem.t)
    (reads : list (string * Z)) (endTime : Z) (w : World) :
  has_dquote D = false →
  has_dquote M = false →
  concat_chunks reads.*1 = payload D M →
  let st := (read_loop (DiffItem.id diff) reads
               (initialExtraction, begin_request (DiffItem.id diff) w)).1 in
  finalDeveloper st = D ∧ finalMarketing st = M
  ∧ last (db_calls (db (fetchAIGeneratedDiff diff (FetchBody reads StreamDone endTime) w)))
    = Some (DbUpdate (DiffItem.id diff) (summary_changes D M endTime))
  ∧ generatedSummaries (notes (fetchAIGeneratedDiff diff (FetchBody reads StreamDone endTime) w))
      !! DiffItem.id diff
    = Some {| developer := D; marketing := M |}.
Proof.
  intros HD HM Hcat. cbv zeta.
  assert (finalDeveloper (read_loop (DiffItem.id diff) reads
            (initialExtraction, begin_request (DiffItem.id diff) w)).1 = D
          ∧ finalMarketing (read_loop (DiffItem.id diff) reads
            (initialExtraction, begin_request (DiffItem.id diff) w)).1 = M) as [Hd Hm].
  { rewrite read_loop_extraction. simpl fst.
    destruct reads as [|rd reads _] using rev_ind; [done|].
    rewrite fmap_snoc, foldl_snoc. rewrite fmap_snoc in Hcat.
    unfold extract_step at 1 3. simpl.
    rewrite accumulated_foldl, <-(str_app_nil_r rd.1).
    change (rd.1 +:+ "") with (concat_chunks [rd.1]).
    change (accumulated initialExtraction) with "".
    rewrite str_app_nil_l, <-concat_chunks_app, Hcat.
    by rewrite devRe_on_payload, mktRe_on_payload. }
  split; [done|]. split; [done|].
  rewrite fetch_body_eq. cbv zeta. unfold stream_phase. simpl fst. simpl snd.
  rewrite Hd, Hm. split; [apply last_snoc|].
  pose proof (surfaced_is_best (DiffItem.id diff) reads w) as Hs. cbv zeta in Hs.
  rewrite Hd, Hm in Hs. exact Hs.
Qed.

(** The spec's scenario, completed by the closing quote and brace:
    three chunks cut inside the first field name and between the
    fields. *)
Lemma payload_extracted_at_any_split_witness :
  let reads := [ (String "{" (String dquote "developer_"), 1);
                 ("notes" +:+ String dquote (String ":" (String dquote
                    ("Fix bug" +:+ String dquote (String "," (String dquote ""))))), 2);
                 ("marketing_notes" +:+ String dquote (String ":" (String dquote
                    ("You'll see fewer crashes!" +:+ String dquote "}"))), 3) ] in
  let diff := {| DiffItem.id := "42"; DiffItem.description := "d";
                 DiffItem.diff := "x"; DiffItem.url := "u" |} in
  let st := (read_loop "42" reads (initialExtraction, begin_request "42" initialWorld)).1 in
  finalDeveloper st = "Fix bug" ∧ finalMarketing st = "You'll see fewer crashes!"
  ∧ last (db_calls (db (fetchAIGeneratedDiff diff (FetchBody reads StreamDone 4) initialWorld)))
    = Some (DbUpdate "42" (summary_changes "Fix bug" "You'll see fewer crashes!" 4))
  ∧ generatedSummaries
      (notes (fetchAIGeneratedDiff diff (FetchBody reads StreamDone 4) initialWorld)) !! "42"
    = Some {| developer := "Fix bug"; marketing := "You'll see fewer crashes!" |}.
Proof.
  cbv zeta.
  apply (payload_extracted_at_any_split "Fix bug" "You'll see fewer crashes!"
           {| DiffItem.id := "42"; DiffItem.description := "d";
              DiffItem.diff := "x"; DiffItem.url := "u" |});
    reflexivity.
Defined.

(** C3.  One more chunk never makes a best value regress.  A field
    whose pattern gives nothing on the grown buffer keeps its value; a
    field whose pattern already stood in the buffer gets a capture that
    extends the old one, so is at least as long; and in every state the
    loop can reach both values are extended by the step, so a value
    that is set is never back to empty.  The entry the page shows for
    the request follows the same rule. *)
Theorem best_values_never_regress (st : ExtractionState) (chunk : string) :
  let st' := extract_step st chunk in
  (match_capture devRe (accumulated st') = None → finalDeveloper st' = finalDeveloper st)
  ∧ (match_capture mktRe (accumulated st') = None → finalMarketing st' = finalMarketing st)
  ∧ (∀ v, match_capture devRe (accumulated st) = Some v →
       ∃ v', match_capture devRe (accumulated st') = Some v' ∧ finalDeveloper st' = v'
             ∧ str_prefix v v' ∧ (String.length v ≤ String.length v')%nat)
  ∧ (∀ v, match_capture mktRe (accumulated st) = Some v →
       ∃ v', match_capture mktRe (accumulated st') = Some v' ∧ finalMarketing st' = v'
             ∧ str_prefix v v' ∧ (String.length v ≤ String.length v')%nat)
  ∧ (reachable st →
       str_prefix (finalDeveloper st) (finalDeveloper st')
       ∧ str_prefix (finalMarketing st) (finalMarketing st')
       ∧ (finalDeveloper st ≠ "" → finalDeveloper st' ≠ "")
       ∧ (finalMarketing st ≠ "" → finalMarketing st' ≠ ""))
  ∧ (∀ id reads rd w,
       let sw := read_loop id reads (initialExtraction, begin_request id w) in
       let sw' := loop_body id sw rd in
       ∃ e e', generatedSummaries (notes sw.2) !! id = Some e
               ∧ generatedSummaries (notes sw'.2) !! id = Some e'
               ∧ str_prefix (developer e) (developer e')
               ∧ str_prefix (marketing e) (marketing e')).
Proof.
  cbv zeta. unfold extract_step at 1 2 3 4 5 6 7 8; simpl.
  split; [by intros ->|]. split; [by intros ->|].
  split; [|split; [|split]].
  - intros v Hv. destruct (match_capture_mono _ _ chunk _ Hv) as (v' & Hv' & Hpre).
    exists v'. rewrite Hv'. auto using str_prefix_length.
  - intros v Hv. destruct (match_capture_mono _ _ chunk _ Hv) as (v' & Hv' & Hpre).
    exists v'. rewrite Hv'. auto using str_prefix_length.
  - intros Hreach. destruct (extract_step_extends st chunk Hreach) as [Hd Hm].
    unfold extract_step in Hd, Hm; simpl in Hd, Hm.
    split; [done|]. split; [done|].
    split; intros Hne Hnil; apply Hne.
    + rewrite Hnil in Hd. by apply str_prefix_of_nil.
    + rewrite Hnil in Hm. by apply str_prefix_of_nil.
  - intros id reads rd w.
    pose proof (surfaced_is_best id reads w) as He.
    pose proof (surfaced_is_best id (reads ++ [rd]) w) as He'.
    cbv zeta in He, He'. rewrite read_loop_snoc in He'.
    eexists _, _. split; [exact He|]. split; [exact He'|].
    rewrite loop_body_eq. cbv zeta. simpl fst.
    apply extract_step_extends, read_loop_reachable.
Qed.

(** The developer note grows from [Fix] to [Fix bug] while the marketing
    pattern stands nowhere yet. *)
Lemma best_values_never_regress_witness :
  let st := extract_step initialExtraction (String "{" (devRe +:+ "Fix")) in
  let st' := extract_step st (" bug" +:+ String dquote ",") in
  (finalDeveloper st = "Fix" ∧ finalDeveloper st' = "Fix bug" ∧ finalMarketing st' = "")
  ∧ str_prefix (finalDeveloper st) (finalDeveloper st')
  ∧ str_prefix (finalMarketing st) (finalMarketing st')
  ∧ (finalDeveloper st ≠ "" → finalDeveloper st' ≠ "")
  ∧ (finalMarketing st ≠ "" → finalMarketing st' ≠ "").
Proof.
  cbv zeta. split; [compute_decide|].
  apply (proj2 (proj2 (proj2 (proj2 (best_values_never_regress
           (extract_step initialExtraction (String "{" (devRe +:+ "Fix")))
           (" bug" +:+ String dquote ",")))))).
  by exists [String "{" (devRe +:+ "Fix")].
Defined.

(** The run of the loop over three chunks cut inside the first field
    name and between the fields: nothing after the first, the developer
    note after the second, both notes after the third and the developer
    note unchanged. *)
Example three_chunk_run :
  let c1 := String "{" (String dquote "developer_") in
  let c2 := "notes" +:+ String dquote (String ":" (String dquote
              ("Fix bug" +:+ String dquote (String "," (String dquote ""))))) in
  let c3 := "marketing_notes" +:+ String dquote (String ":" (String dquote
              "You'll see fewer crashes!")) in
  let st1 := extract_step initialExtraction c1 in
  let st2 := extract_step st1 c2 in
  let st3 := extract_step st2 c3 in
  (finalDeveloper st1, finalMarketing st1) = ("", "")
  ∧ (finalDeveloper st2, finalMarketing st2) = ("Fix bug", "")
  ∧ (finalDeveloper st3, finalMarketing st3) = ("Fix bug", "You'll see fewer crashes!").
Proof. cbv zeta. compute_decide. Qed.

(** C4.  A capture is the raw text between the quote that opens the
    field's value, at the leftmost place where the field's opener
    stands, and the first double quote behind it (or the end of the
    buffer); nothing is decoded.  In particular, when the value holds a
    backslash followed by a quote, the capture ends in front of that
    quote and the backslash is the last character of the captured text. *)
Theorem capture_is_raw_text :
  (∀ lit buf v,
     match_capture lit buf = Some v ↔
     ∃ pre rest, buf = pre +:+ lit +:+ v +:+ rest
       ∧ has_dquote v = false
       ∧ (rest = "" ∨ ∃ rest', rest = String dquote rest')
       ∧ (∀ p1 p2, pre = p1 +:+ p2 → p2 ≠ "" →
            strip_literal lit (p2 +:+ lit +:+ v +:+ rest) = None))
  ∧ (∀ pre x tail,
       has_dquote pre = false → has_dquote x = false →
       match_capture devRe (pre +:+ devRe +:+ x +:+ String backslash (String dquote tail))
       = Some (x +:+ String backslash "")
       ∧ match_capture mktRe (pre +:+ mktRe +:+ x +:+ String backslash (String dquote tail))
         = Some (x +:+ String backslash "")).
Proof.
  split.
  - intros lit buf v. split; [apply match_capture_Some|].
    intros (pre & rest & -> & Hv & Hrest & Hleft). by apply match_capture_intro.
  - intros pre x tail Hpre Hx.
    assert (∀ name, match_capture (field_opener name)
              (pre +:+ field_opener name +:+ x +:+ String backslash (String dquote tail))
            = Some (x +:+ String backslash "")) as H.
    { intros name. unfold field_opener at 1. rewrite match_capture_skip_clean by done.
      erewrite match_capture_here by apply strip_literal_app.
      rewrite <-(str_app_nil_l (String dquote tail)), <-str_app_cons, <-str_app_assoc.
      rewrite not_quote_run_stop; [done|].
      rewrite has_dquote_app, Hx. reflexivity. }
    split; apply H.
Qed.

(** A developer note that holds an escaped quote is cut in front of the
    quote, and the backslash stays. *)
Lemma capture_is_raw_text_witness :
  match_capture devRe
    (String "{" "" +:+ devRe +:+ "say " +:+ String backslash (String dquote "hi"))
  = Some ("say " +:+ String backslash "").
Proof.
  apply (proj2 capture_is_raw_text (String "{" "") "say " "hi"); reflexivity.
Defined.
End claims_extractor.

Section claims_request.
Import Regex.
Implicit Types (w : World) (diff : DiffItem.t) (reads : list (string * Z)).

(** C2, as the code has it.  When [read()] rejects, the loop stops:
    the variables of the call stay as they are, and the message is
    shown.  Writes for the id still follow: the final [update], issued
    in the same stretch, and after it one partial write for every
    function React has not yet run, as many as are queued and React gets
    to.  All of them carry the best values reached when the stream
    broke and differ in their time only, so a stored record of the id
    ends with these values and the time of the last of these writes,
    its other properties as they were.  Records of other ids are not
    touched.  When the request had written before the stream broke, the
    notes then stored are initial segments of the best values.  When
    React had run every function before the stream broke and at least
    one chunk was read, the final [update] is the only write that
    follows, and it changes nothing of the record but
    [summaryUpdatedAt]. *)
Theorem abort_is_followed_by_writes diff (ticks : list Tick) (m : string) (endTime : Z)
    (between after : list Z) w :
  let id := DiffItem.id diff in
  let loop := run_loop id ticks w in
  let at_end := run_request diff ticks (StreamError m) endTime between after w in
  let dev := finalDeveloper (run_vars loop) in
  let mkt := finalMarketing (run_vars loop) in
  let ran := take (run_queued loop) (between ++ after) in
  run_vars at_end = run_vars loop
  ∧ summaryErrors (notes (run_world at_end)) !! id
    = Some (or_str m "Error while reading AI stream.")
  ∧ db_calls (db (run_world at_end))
    = db_calls (db (run_world loop))
      ++ DbUpdate id (summary_changes dev mkt endTime)
         :: ((λ now : Z, DbUpdate id (summary_changes dev mkt now)) <$> ran)
  ∧ (∀ k, k ≠ id →
       db_diffs (db (run_world at_end)) !! k = db_diffs (db (run_world loop)) !! k)
  ∧ (∀ o, db_diffs (db (run_world loop)) !! id = Some o →
       db_diffs (db (run_world at_end)) !! id
       = Some (summary_changes dev mkt (default endTime (last ran)) ∪ o)
       ∧ (db_calls (db (run_world loop)) ≠ db_calls (db w) →
          ∃ d0 m0, o !! "summaryDeveloper" = Some (PStr d0)
                   ∧ o !! "summaryMarketing" = Some (PStr m0)
                   ∧ str_prefix d0 dev ∧ str_prefix m0 mkt)
       ∧ (run_queued loop = 0%nat → chunks_of ticks ≠ [] →
          ran = [] ∧ ∀ f, f ≠ "summaryUpdatedAt" →
                       (summary_changes dev mkt endTime ∪ o) !! f = o !! f)).
Proof.
  cbv zeta. rewrite run_request_eq.
  set (id := DiffItem.id diff). set (loop := run_loop id ticks w).
  destruct (run_loop_inv id ticks w) as (e & calls & He & Hd & Hm & Hq & Hcalls & Hlen & _ & Hrec).
  cbv zeta in He, Hd, Hm, Hq, Hcalls, Hlen, Hrec. fold loop in He, Hd, Hm, Hq, Hcalls, Hlen, Hrec.
  set (r1 := run_end id (StreamError m) endTime loop).
  assert (run_world r1
          = (db_update id (summary_changes (finalDeveloper (run_vars loop))
                             (finalMarketing (run_vars loop)) endTime)
               (on_stream_end id (StreamError m) (run_world loop))).1) as Hw1.
  { unfold r1, run_end. cbn [run_world]. apply final_write_eq. }
  assert (generatedSummaries (notes (run_world r1)) !! id = Some e) as He1.
  { rewrite Hw1. exact He. }
  destruct (run_react id (between ++ after) r1 e He1 Hd Hm) as (Hv & _ & Hc & _ & Hr).
  change (run_vars r1) with (run_vars loop) in Hv, Hc, Hr.
  change (run_queued r1) with (run_queued loop) in Hc, Hr.
  destruct (run_ticks_frame id (TickReact <$> (between ++ after)) r1)
    as (_ & _ & Herr & _ & Hother & _).
  unfold run_finish. cbn [run_vars run_world].
  split; [exact Hv|]. split.
  { change (summaryErrors (notes (setLoadingSummaries ?f ?x))) with (summaryErrors (notes x)).
    rewrite Herr, Hw1. apply lookup_insert_eq. }
  split.
  { change (db (setLoadingSummaries ?f ?x)) with (db x).
    rewrite Hc, Hw1. cbn [db_update fst db with_db db_calls on_stream_end].
    rewrite <-(assoc (++)). reflexivity. }
  split.
  { intros k Hk. change (db (setLoadingSummaries ?f ?x)) with (db x).
    rewrite (Hother k Hk), Hw1. apply update_lookup_ne. done. }
  intros o Ho. split; [|split].
  - change (db (setLoadingSummaries ?f ?x)) with (db x).
    apply (Hr endTime o). rewrite Hw1.
    change (db_diffs (db (db_update ?k ?ch ?x).1)) with (Dexie.update k ch (db_diffs (db x))).1.
    rewrite update_lookup.
    change (db_diffs (db (on_stream_end id (StreamError m) (run_world loop))))
      with (db_diffs (db (run_world loop))).
    by rewrite Ho.
  - intros Hwrote.
    assert (calls ≠ []) as Hne.
    { intros ->. apply Hwrote. by rewrite Hcalls, app_nil_r. }
    destruct (Hrec Hne o Ho) as [Ho1 Ho2]. eauto 10.
  - intros Hq0 Hchunks. rewrite Hq0, take_0. split; [done|]. intros f Hf.
    assert (calls ≠ []) as Hne.
    { intros ->. rewrite Hq0 in Hlen. simpl in Hlen. by destruct (chunks_of ticks). }
    destruct (Hrec Hne o Ho) as [Ho1 Ho2].
    pose proof (Hq Hq0) as ->. cbn [developer marketing] in Ho1, Ho2.
    destruct (decide (f = "summaryDeveloper")) as [->|?];
      [by rewrite lookup_union_l', Ho1|].
    destruct (decide (f = "summaryMarketing")) as [->|?];
      [by rewrite lookup_union_l', Ho2|].
    by rewrite lookup_union_r by by apply summary_changes_other.
Qed.

(** C2 fails as worded: a request whose stream breaks after one chunk
    still issues the write that follows the loop, and that write
    changes the record (its time goes from 7 to 9). *)
Lemma write_after_abort :
  let reads := [(String "{" (devRe +:+ "Fix"), 7)] in
  let at_abort := stream_phase "42" reads (StreamError "aborted") (begin_request "42" listed42) in
  let at_end := fetchAIGeneratedDiff pr42 (FetchBody reads (StreamError "aborted") 9) listed42 in
  db at_end ≠ db at_abort.2
  ∧ db_calls (db at_end)
    = db_calls (db at_abort.2) ++ [DbUpdate "42" (summary_changes "Fix" "" 9)]
  ∧ db_diffs (db at_abort.2) !! "42" ≫= (.!! "summaryUpdatedAt") = Some (PNum 7)
  ∧ db_diffs (db at_end) !! "42" ≫= (.!! "summaryUpdatedAt") = Some (PNum 9).
Proof.
  cbv zeta. repeat split; compute_decide.
Qed.

(** On the sample page: the stream breaks after one chunk whose
    function React has not run yet; the final write, at time 9, is
    followed by the partial write of that function, at time 10. *)
Lemma abort_is_followed_by_writes_witness :
  let ticks := [TickRead (String "{" (devRe +:+ "Fix"))] in
  let at_end := run_request pr42 ticks (StreamError "aborted") 9 [] [10] listed42 in
  db_calls (db (run_world at_end))
  = db_calls (db listed42)
    ++ [DbUpdate "42" (summary_changes "Fix" "" 9);
        DbUpdate "42" (summary_changes "Fix" "" 10)].
Proof.
  cbv zeta.
  destruct (abort_is_followed_by_writes pr42 [TickRead (String "{" (devRe +:+ "Fix"))]
              "aborted" 9 [] [10] listed42) as (_ & _ & H & _).
  cbv zeta in H. rewrite H. compute_decide.
Defined.

(** C5.  A stream that ends at once, without a chunk: both best values
    stay empty, nothing is caught or logged and no error is shown, and
    the one write issued is the final one, with two empty strings and
    the time of the end; it leaves a record that is stored with these
    three properties and its other properties as they were. *)
Theorem empty_stream_stores_empty_notes diff (endTime : Z) w :
  let id := DiffItem.id diff in
  let st := (stream_phase id [] StreamDone (begin_request id w)).1 in
  let w' := fetchAIGeneratedDiff diff (FetchBody [] StreamDone endTime) w in
  finalDeveloper st = "" ∧ finalMarketing st = ""
  ∧ console w' = console w
  ∧ summaryErrors (notes w') !! id = Some ""
  ∧ generatedSummaries (notes w') !! id = Some {| developer := ""; marketing := "" |}
  ∧ db_calls (db w') = db_calls (db w) ++ [DbUpdate id (summary_changes "" "" endTime)]
  ∧ db_diffs (db w') !! id
    = (summary_changes "" "" endTime ∪.) <$> db_diffs (db w) !! id
  ∧ (∀ o, db_diffs (db w) !! id = Some o →
       ∃ o', db_diffs (db w') !! id = Some o'
         ∧ o' !! "summaryDeveloper" = Some (PStr "")
         ∧ o' !! "summaryMarketing" = Some (PStr "")
         ∧ o' !! "summaryUpdatedAt" = Some (PNum endTime)
         ∧ ∀ f, f ≠ "summaryDeveloper" → f ≠ "summaryMarketing" →
                f ≠ "summaryUpdatedAt" → o' !! f = o !! f).
Proof.
  cbv zeta. rewrite fetch_body_eq. cbv zeta. simpl.
  do 3 (split; [done|]).
  split; [apply lookup_insert_eq|]. split; [apply lookup_insert_eq|].
  split; [done|]. split; [apply update_lookup|].
  intros o Ho. rewrite update_lookup, Ho. simpl. eexists; split; [done|].
  apply merged_lookup.
Qed.

(** On the sample page, whose record holds no note yet. *)
Lemma empty_stream_stores_empty_notes_witness :
  let w' := fetchAIGeneratedDiff pr42 (FetchBody [] StreamDone 9) listed42 in
  ∃ o', db_diffs (db w') !! "42" = Some o'
    ∧ o' !! "summaryDeveloper" = Some (PStr "")
    ∧ o' !! "summaryMarketing" = Some (PStr "")
    ∧ o' !! "summaryUpdatedAt" = Some (PNum 9)
    ∧ ∀ f, f ≠ "summaryDeveloper" → f ≠ "summaryMarketing" → f ≠ "summaryUpdatedAt" →
           o' !! f = default ∅ (db_diffs (db listed42) !! "42") !! f.
Proof.
  cbv zeta.
  apply (proj2 (proj2 (proj2 (proj2 (proj2 (proj2 (proj2
           (empty_stream_stores_empty_notes pr42 9 listed42)))))))).
  compute_decide.
Defined.

(** C8.  An [update] for an id without a record changes nothing in the
    table and its promise is fulfilled, with the count 0.  A request
    for such an id therefore leaves the table as it was, logs and shows
    nothing but what the stream itself reports, and extracts what the
    loop extracts from the chunks alone. *)
Theorem update_of_missing_id_is_silent :
  (∀ (id : string) (changes : Obj) (t : gmap string Obj),
     t !! id = None → Dexie.update id changes t = (t, Fulfilled 0%nat))
  ∧ (∀ diff reads ending endTime w,
       let id := DiffItem.id diff in
       let sw := stream_phase id reads ending (begin_request id w) in
       let w' := fetchAIGeneratedDiff diff (FetchBody reads ending endTime) w in
       db_diffs (db w) !! id = None →
       db_diffs (db w') = db_diffs (db w)
       ∧ sw.1 = foldl extract_step initialExtraction reads.*1
       ∧ generatedSummaries (notes w') !! id
         = Some {| developer := finalDeveloper sw.1; marketing := finalMarketing sw.1 |}
       ∧ console w' = console w ++
           match ending with
           | StreamDone => []
           | StreamError m => [(LogError, [or_str m "Error while reading AI stream."])]
           end
       ∧ summaryErrors (notes w') !! id
         = Some match ending with
                | StreamDone => ""
                | StreamError m => or_str m "Error while reading AI stream."
                end).
Proof.
  split; [intros; by apply update_absent|].
  intros diff reads ending endTime w. cbv zeta. intros Hnone.
  rewrite fetch_body_eq. cbv zeta. unfold stream_phase. simpl.
  pose proof (read_loop_absent (DiffItem.id diff) reads
                (initialExtraction, begin_request (DiffItem.id diff) w) Hnone) as Hdb.
  destruct (read_loop_frame (DiffItem.id diff) reads
              (initialExtraction, begin_request (DiffItem.id diff) w))
    as (Hcon & _ & Herr & _ & _ & _).
  cbv zeta in *. simpl in Hdb, Hcon, Herr.
  rewrite on_stream_end_db, Hdb, update_absent by done. simpl.
  split; [done|]. split; [apply read_loop_extraction|].
  split; [|destruct ending; simpl; rewrite ?Hcon, ?Herr].
  - rewrite <-(surfaced_is_best (DiffItem.id diff) reads w). by destruct ending.
  - split; [by rewrite (right_id_L [] (++))|apply lookup_insert_eq].
  - split; [done|apply lookup_insert_eq].
Qed.

Lemma update_of_missing_id_witness :
  Dexie.update "7" (summary_changes "a" "b" 3) (db_diffs (db listed42))
  = (db_diffs (db listed42), Fulfilled 0%nat).
Proof.
  apply (proj1 update_of_missing_id_is_silent). compute_decide.
Defined.

(** C10, as the code has it.  A request first resets what the page
    shows for its id to two empty strings, whatever was shown or stored
    before, and leaves the table alone.  Whenever React runs the
    functions of the loop, every write issued is an [update] of that id
    that carries both [summaryDeveloper] and [summaryMarketing], and
    there is one write or one queued function for every chunk read.
    The two values of a write are those the variables of the call hold
    when React runs the function, not when the chunk was handled: run
    while the marketing pattern stands nowhere in the buffer, the
    function stores the empty string as [summaryMarketing] in the id's
    record, in place of what was stored there, next to the developer
    value captured so far. *)
Theorem partial_writes_carry_both_notes diff (ticks : list Tick) (now : Z) w :
  let id := DiffItem.id diff in
  let loop := run_loop id ticks w in
  let next := run_tick id loop (TickReact now) in
  generatedSummaries (notes (begin_request id w)) !! id
    = Some {| developer := ""; marketing := "" |}
  ∧ db (begin_request id w) = db w
  ∧ (∃ calls, db_calls (db (run_world loop)) = db_calls (db w) ++ calls
       ∧ (length calls + run_queued loop)%nat = length (chunks_of ticks)
       ∧ Forall (λ c, ∃ changes, c = DbUpdate id changes
                    ∧ is_Some (changes !! "summaryDeveloper")
                    ∧ is_Some (changes !! "summaryMarketing")) calls)
  ∧ (run_queued loop ≠ 0%nat →
     db_calls (db (run_world next))
     = db_calls (db (run_world loop))
       ++ [DbUpdate id (summary_changes (finalDeveloper (run_vars loop))
                          (finalMarketing (run_vars loop)) now)]
     ∧ (match_capture mktRe (accumulated (run_vars loop)) = None →
        ∀ o, db_diffs (db (run_world loop)) !! id = Some o →
          ∃ o', db_diffs (db (run_world next)) !! id = Some o'
            ∧ o' !! "summaryMarketing" = Some (PStr "")
            ∧ o' !! "summaryDeveloper"
              = Some (PStr (default "" (match_capture devRe (accumulated (run_vars loop))))))).
Proof.
  cbv zeta. split; [apply lookup_insert_eq|]. split; [reflexivity|].
  set (id := DiffItem.id diff). set (loop := run_loop id ticks w).
  destruct (run_loop_inv id ticks w) as (e & calls & He & Hd & Hm & _ & Hcalls & Hlen & Hall & _).
  cbv zeta in He, Hd, Hm, Hcalls, Hlen. fold loop in He, Hd, Hm, Hcalls, Hlen.
  split.
  - exists calls. split; [done|]. split; [done|].
    eapply Forall_impl; [exact Hall|]. intros c (dev & mkt & t & ->).
    eexists. split; [done|]. split; eexists; reflexivity.
  - intros Hqueued. destruct (run_queued loop) as [|n] eqn:Eq; [done|].
    rewrite (run_tick_react_S id loop now n Eq). cbn [run_world].
    destruct (run_updater_own id (run_vars loop) now (run_world loop) e He Hd Hm)
      as (_ & Hc & Hr).
    split; [exact Hc|]. intros Hmkt o Ho. rewrite Hr, Ho.
    eexists. split; [reflexivity|].
    destruct (reachable_best _ (run_loop_reachable id ticks w)) as [Hbd Hbm].
    fold loop in Hbd, Hbm. rewrite Hmkt in Hbm.
    destruct (merged_lookup (finalDeveloper (run_vars loop)) (finalMarketing (run_vars loop))
                now o) as (-> & -> & _).
    by rewrite Hbm, Hbd.
Qed.

(** A second generation for the sample record, which holds the
    marketing note [Old mkt]: the first chunk brings the start of the
    developer note only, and React runs its function before the next
    chunk is there. *)
Lemma partial_writes_carry_both_notes_witness :
  let loop := run_loop "42" [TickRead (String "{" (devRe +:+ "Fix"))] noted42 in
  let next := run_tick "42" loop (TickReact 8) in
  db_diffs (db noted42) !! "42" ≫= (.!! "summaryMarketing") = Some (PStr "Old mkt")
  ∧ ∃ o', db_diffs (db (run_world next)) !! "42" = Some o'
      ∧ o' !! "summaryMarketing" = Some (PStr "")
      ∧ o' !! "summaryDeveloper"
        = Some (PStr (default "" (match_capture devRe (accumulated (run_vars loop))))).
Proof.
  cbv zeta. split; [compute_decide|].
  destruct (partial_writes_carry_both_notes pr42 [TickRead (String "{" (devRe +:+ "Fix"))]
              8 noted42) as (_ & _ & _ & H).
  cbv zeta in H. destruct H as [_ H]; [compute_decide|].
  apply H with (o := default ∅ (db_diffs (db noted42) !! "42")); compute_decide.
Defined.

(** C10 fails as worded.  In a second generation for the sample record
    the first chunk brings the developer note only, so the first match
    of the request is for the developer note alone; the second chunk
    follows before React has run a function.  Then no write stores the
    empty string as [summaryMarketing]: the final write and the two
    functions React runs afterwards all carry both notes, and the
    marketing note of the record goes from the old one to the new one. *)
Lemma developer_first_without_empty_write :
  let c1 := String "{" (devRe +:+ "Fix") in
  let c2 := String dquote (String "," (mktRe +:+ "Nice" +:+ String dquote "}")) in
  let at_end := run_request pr42 [TickRead c1; TickRead c2] StreamDone 9 [10; 11] [] noted42 in
  c1 +:+ c2 = payload "Fix" "Nice"
  ∧ (finalDeveloper (extract_step initialExtraction c1),
     finalMarketing (extract_step initialExtraction c1)) = ("Fix", "")
  ∧ db_diffs (db noted42) !! "42" ≫= (.!! "summaryMarketing") = Some (PStr "Old mkt")
  ∧ db_calls (db (run_world at_end))
    = db_calls (db noted42)
      ++ [DbUpdate "42" (summary_changes "Fix" "Nice" 9);
          DbUpdate "42" (summary_changes "Fix" "Nice" 10);
          DbUpdate "42" (summary_changes "Fix" "Nice" 11)]
  ∧ db_diffs (db (run_world at_end)) !! "42" ≫= (.!! "summaryMarketing")
    = Some (PStr "Nice").
Proof.
  cbv zeta. repeat split; compute_decide.
Qed.
End claims_request.

Section claims_cache.
Implicit Types (t : gmap string Obj) (o changes : Obj) (items : list Obj).

(** C6.  An [update] of a record that is stored changes the properties
    it is given and no other: the record afterwards holds every given
    property with its new value and every other property as before, and
    the records of other ids are as before.  With only the developer
    note given, the marketing note of the record stays. *)
Theorem update_merges_into_record (id : string) changes o t :
  t !! id = Some o →
  let t' := (Dexie.update id changes t).1 in
  t' !! id = Some (changes ∪ o)
  ∧ (∀ f v, changes !! f = Some v → (changes ∪ o) !! f = Some v)
  ∧ (∀ f, changes !! f = None → (changes ∪ o) !! f = o !! f)
  ∧ (∀ k, k ≠ id → t' !! k = t !! k)
  ∧ (∀ f g x y, f ≠ g → o !! g = Some y →
       ∃ o', (Dexie.update id {[ f := x ]} t).1 !! id = Some o'
             ∧ o' !! f = Some x ∧ o' !! g = Some y).
Proof.
  intros Ho. cbv zeta. rewrite update_lookup, Ho. split; [done|].
  split; [intros f v Hf; by apply lookup_union_Some_l|].
  split; [intros f Hf; by apply lookup_union_r|].
  split; [intros k Hk; by apply update_lookup_ne|].
  intros f g x y Hfg Hg. rewrite update_lookup, Ho. eexists. split; [done|]. split.
  - apply lookup_union_Some_l, lookup_singleton_eq.
  - rewrite lookup_union_r; [done|]. by apply lookup_singleton_ne.
Qed.

(** On the sample record, which holds the marketing note [Old mkt]. *)
Lemma update_merges_into_record_witness :
  let o : Obj := default ∅ (db_diffs (db noted42) !! "42") in
  let changes : Obj := {[ "summaryDeveloper" := PStr "x" ]} in
  let t' := (Dexie.update "42" changes (db_diffs (db noted42))).1 in
  o !! "summaryMarketing" = Some (PStr "Old mkt")
  ∧ t' !! "42" = Some (changes ∪ o)
  ∧ (∀ f v, changes !! f = Some v → (changes ∪ o) !! f = Some v)
  ∧ (∀ f, changes !! f = None → (changes ∪ o) !! f = o !! f)
  ∧ (∀ k, k ≠ "42" → t' !! k = db_diffs (db noted42) !! k)
  ∧ (∀ f g x y, f ≠ g → o !! g = Some y →
       ∃ o', (Dexie.update "42" {[ f := x ]} (db_diffs (db noted42))).1 !! "42" = Some o'
             ∧ o' !! f = Some x ∧ o' !! g = Some y).
Proof.
  cbv zeta. split; [compute_decide|].
  apply update_merges_into_record. compute_decide.
Defined.

(** C7.  For records that all have an id, no two the same: after
    [bulkPut] the promise is fulfilled, [toArray] holds every record
    put, each id put maps to exactly the record put for it, whatever
    was stored there before, so that no property of the old record is
    left, other ids are as before, and [toArray] holds nothing else.
    [fetchDiffs] stores the records of a listing this way, each with
    [fetchedAt] added, and the startup effect puts what [toArray] returns
    on the page. *)
Theorem bulkPut_replaces_whole_records items t :
  Forall (λ o, is_Some (Dexie.key_of o)) items →
  NoDup (Dexie.key_of <$> items) →
  let r := Dexie.bulkPut items t in
  r.2 = Fulfilled ()
  ∧ (∀ o, o ∈ items → o ∈ Dexie.toArray r.1)
  ∧ (∀ o k, o ∈ items → Dexie.key_of o = Some k → r.1 !! k = Some o)
  ∧ (∀ o k f, o ∈ items → Dexie.key_of o = Some k → r.1 !! k ≫= (.!! f) = o !! f)
  ∧ (∀ k, (∀ o, o ∈ items → Dexie.key_of o ≠ Some k) → r.1 !! k = t !! k)
  ∧ (∀ o, o ∈ Dexie.toArray r.1 → o ∈ items ∨ o ∈ Dexie.toArray t)
  ∧ (∀ page data ds now w,
       data !! "diffs" = Some (JArr ds) →
       db_diffs (db (fetchDiffs page (ListingData data) now w))
       = (Dexie.bulkPut ((λ d : Obj, <["fetchedAt" := PNum now]> d) <$> ds)
            (db_diffs (db w))).1)
  ∧ (∀ w, Dexie.toArray (db_diffs (db w)) ≠ [] →
       diffs (listing (startup w)) = Some (Dexie.toArray (db_diffs (db w)))).
Proof.
  intros Hkeys Hnd. cbv zeta. unfold Dexie.bulkPut. simpl.
  assert (∀ o k, o ∈ items → Dexie.key_of o = Some k →
            foldl Dexie.put t items !! k = Some o) as Hstored.
  { intros o k Ho Hk. apply foldl_put_stored; [done..|].
    intros o' Ho' Hk'. by eapply NoDup_keys_unique. }
  split.
  { by rewrite all_keyed. }
  split.
  { intros o Ho. rewrite Forall_forall in Hkeys. destruct (Hkeys o Ho) as [k Hk].
    apply toArray_elem. eauto. }
  split; [done|].
  split; [intros o k f Ho Hk; by rewrite (Hstored o k)|].
  split; [intros k Hk; by apply foldl_put_other|].
  split.
  { intros o [k Hk]%toArray_elem. apply foldl_put_origin in Hk as [?|?]; [by left|].
    right. apply toArray_elem. eauto. }
  split.
  { intros page data ds now w Hds. unfold fetchDiffs, persist_diffs. rewrite Hds. simpl.
    by destruct (forallb _ _). }
  intros w Hne. unfold startup. by destruct (Dexie.toArray _).
Qed.

(** On the sample record with both notes: the same pull request listed
    again at time 8 is stored without them. *)
Lemma bulkPut_replaces_whole_records_witness :
  let entity : Obj := <["fetchedAt" := PNum 8]> (DiffItem.to_obj pr42) in
  let r := Dexie.bulkPut [entity] (db_diffs (db noted42)) in
  (db_diffs (db noted42) !! "42" ≫= (.!! "summaryMarketing") = Some (PStr "Old mkt")
   ∧ entity !! "summaryMarketing" = None)
  ∧ r.2 = Fulfilled ()
  ∧ (∀ o, o ∈ [entity] → o ∈ Dexie.toArray r.1)
  ∧ (∀ o k, o ∈ [entity] → Dexie.key_of o = Some k → r.1 !! k = Some o)
  ∧ (∀ o k f, o ∈ [entity] → Dexie.key_of o = Some k → r.1 !! k ≫= (.!! f) = o !! f)
  ∧ (∀ k, (∀ o, o ∈ [entity] → Dexie.key_of o ≠ Some k) →
       r.1 !! k = db_diffs (db noted42) !! k)
  ∧ (∀ o, o ∈ Dexie.toArray r.1 → o ∈ [entity] ∨ o ∈ Dexie.toArray (db_diffs (db noted42)))
  ∧ (∀ page data ds now w,
       data !! "diffs" = Some (JArr ds) →
       db_diffs (db (fetchDiffs page (ListingData data) now w))
       = (Dexie.bulkPut ((λ d : Obj, <["fetchedAt" := PNum now]> d) <$> ds)
            (db_diffs (db w))).1)
  ∧ (∀ w, Dexie.toArray (db_diffs (db w)) ≠ [] →
       diffs (listing (startup w)) = Some (Dexie.toArray (db_diffs (db w)))).
Proof.
  cbv zeta. split; [split; compute_decide|].
  apply (bulkPut_replaces_whole_records
           [<["fetchedAt" := PNum 8]> (DiffItem.to_obj pr42)] (db_diffs (db noted42))).
  - apply Forall_singleton. by eexists.
  - apply NoDup_singleton.
Defined.
End claims_cache.

Section claims_listing.
Implicit Types (w : World) (rs : list DiffItem.t).

Lemma entity_key d now :
  Dexie.key_of (<["fetchedAt" := PNum now]> (DiffItem.to_obj d)) = Some (DiffItem.id d).
Proof. reflexivity. Qed.

(** What [fetchDiffs] makes of a response written with the names of
    [interface ApiResponse]: [perPage] plays no part. *)
Lemma fetchDiffs_on_ApiResponse (items : list Obj) np cp pp page now w :
  Forall (λ o, is_Some (Dexie.key_of o)) items →
  fetchDiffs page (ListingData (ApiResponse_json items np cp pp)) now w
  = set_listing
      (if page =? 1 then Some items else (λ prev, prev ++ items) <$> diffs (listing w))
      false None (Some (JPrim (PNum cp))) (Some (JPrim (from_option PNum PNull np))) true
      (db_bulkPut ((λ d : Obj, <["fetchedAt" := PNum now]> d) <$> items) w).1.
Proof.
  intros Hkeys. unfold fetchDiffs, persist_diffs. cbv zeta.
  change (ApiResponse_json items np cp pp !! "diffs") with (Some (JArr items)).
  change (ApiResponse_json items np cp pp !! "currentPage") with (Some (JPrim (PNum cp))).
  change (ApiResponse_json items np cp pp !! "nextPage")
    with (Some (JPrim (from_option PNum PNull np))).
  cbv beta iota.
  assert ((db_bulkPut ((λ d : Obj, <["fetchedAt" := PNum now]> d) <$> items) w).2
          = Fulfilled ()) as ->.
  { unfold db_bulkPut, Dexie.bulkPut. simpl. rewrite all_keyed; [done|].
    apply Forall_fmap. eapply Forall_impl; [exact Hkeys|].
    intros o [k Hk]. exists k. unfold Dexie.key_of, Dexie.keyPath in *.
    by rewrite lookup_insert_ne. }
  destruct (page =? 1); [done|]. by destruct (diffs (listing w)).
Qed.

(** C9, as the code has it.  The page reads a listing response under
    the names [diffs], [nextPage] (a number or null) and [currentPage]
    ([perPage] is declared and never read), and a record under [id],
    [description], [diff] and [url]: from a response written with these
    names it takes the paging state and the records, stores each record
    under its [id] with [fetchedAt] added and logs no failure, and the
    backend accepts a record whose [description] and [diff] are not
    empty. *)
Theorem listing_is_read_by_code_names rs (np : option Z) (cp pp page now : Z) w :
  let data := ApiResponse_json (DiffItem.to_obj <$> rs) np cp pp in
  let w' := fetchDiffs page (ListingData data) now w in
  currentPage (listing w') = Some (JPrim (PNum cp))
  ∧ nextPage (listing w') = Some (JPrim (from_option PNum PNull np))
  ∧ error (listing w') = None
  ∧ (page = 1 → diffs (listing w') = Some (DiffItem.to_obj <$> rs))
  ∧ (page ≠ 1 →
     diffs (listing w') = (λ prev, prev ++ (DiffItem.to_obj <$> rs)) <$> diffs (listing w))
  ∧ console w' = console w
  ∧ (∀ pp', fetchDiffs page
              (ListingData (ApiResponse_json (DiffItem.to_obj <$> rs) np cp pp')) now w = w')
  ∧ (∀ d, d ∈ rs → (∀ d', d' ∈ rs → DiffItem.id d' = DiffItem.id d → d' = d) →
       db_diffs (db w') !! DiffItem.id d
       = Some (<["fetchedAt" := PNum now]> (DiffItem.to_obj d)))
  ∧ (∀ d, d ∈ rs →
       DiffItem.to_obj d !! "id" = Some (PStr (DiffItem.id d))
       ∧ DiffItem.to_obj d !! "url" = Some (PStr (DiffItem.url d))
       ∧ (DiffItem.description d ≠ "" → DiffItem.diff d ≠ "" →
          POST true (Some (request_body (DiffItem.to_obj d)))
          = Generate (PStr (DiffItem.description d)) (PStr (DiffItem.diff d)))).
Proof.
  cbv zeta.
  assert (Forall (λ o, is_Some (Dexie.key_of o)) (DiffItem.to_obj <$> rs)) as Hkeys.
  { apply Forall_fmap, Forall_forall. intros d _. by eexists. }
  rewrite fetchDiffs_on_ApiResponse by done.
  do 3 (split; [done|]).
  split; [by intros ->|].
  split; [by intros ->%Z.eqb_neq|].
  split; [done|].
  split; [intros pp'; by rewrite fetchDiffs_on_ApiResponse|].
  split.
  - intros d Hd Huniq. simpl. rewrite <-list_fmap_compose.
    apply foldl_put_stored.
    + apply list_elem_of_fmap. eauto.
    + apply entity_key.
    + intros o' (d' & -> & Hd')%list_elem_of_fmap Hk. simpl in *.
      rewrite entity_key in Hk. injection Hk as Hk. by rewrite (Huniq d' Hd' Hk).
  - intros d Hd. split; [done|]. split; [done|]. intros Hdesc Hdiff.
    unfold POST, request_body. rewrite lookup_singleton_eq.
    change (DiffItem.to_obj d !! "description") with (Some (PStr (DiffItem.description d))).
    change (DiffItem.to_obj d !! "diff") with (Some (PStr (DiffItem.diff d))).
    unfold truthy. cbv beta iota.
    by rewrite !(proj2 (String.eqb_neq _ _)) by done.
Qed.

(** On the sample pull request, listed on page 1 at time 5. *)
Lemma listing_is_read_by_code_names_witness :
  let w' := fetchDiffs 1 (ListingData (ApiResponse_json [DiffItem.to_obj pr42] None 1 10)) 5
              initialWorld in
  db_diffs (db w') !! "42" = Some (<["fetchedAt" := PNum 5]> (DiffItem.to_obj pr42))
  ∧ POST true (Some (request_body (DiffItem.to_obj pr42)))
    = Generate (PStr "Fix crash on start") (PStr "- a + b").
Proof.
  cbv zeta.
  pose proof (listing_is_read_by_code_names [pr42] None 1 10 1 5 initialWorld) as H.
  cbv zeta in H. destruct H as (_ & _ & _ & _ & _ & _ & _ & Hstored & Hrec).
  split.
  - apply (Hstored pr42).
    + by apply list_elem_of_singleton.
    + by intros d' ->%list_elem_of_singleton _.
  - by apply (Hrec pr42); [apply list_elem_of_singleton|..].
Defined.

(** C9 fails as worded: from a response that carries its record under
    [items], with [nextPageToken], [pageSize], [diffText] and
    [sourceUrl], the page takes no record and no next page, stores
    nothing and logs that persisting failed; and the backend refuses
    the record, which has no [diff]. *)
Lemma renamed_listing_is_not_read :
  let w' := fetchDiffs 1 (ListingData renamed_response) 5 initialWorld in
  diffs (listing w') = None
  ∧ nextPage (listing w') = None
  ∧ db_diffs (db w') = ∅
  ∧ db_calls (db w') = []
  ∧ console w' = [(LogError, ["Failed to persist diffs"; "TypeError"])]
  ∧ POST true (Some (request_body renamed_record))
    = ErrorResponse 400 "diffItem with description and diff is required.".
Proof. cbv zeta. repeat split; compute_decide. Qed.
End claims_listing.

(* ===================================================================== *)
(** * More of the code                                                   *)
(* ===================================================================== *)

(** ** The extractor on other texts *)

Section more_extractor.
Import Regex.
Implicit Types (D M X name : string) (reads : list (string * Z)).

(** The quote that opens a value does not start a pattern when the value
    holds no quote and its closing quote is followed by something else
    than a colon. *)
Lemma opener_not_at_value name D c X :
  has_dquote name = false → has_dquote D = false → c ≠ ":"%char →
  strip_literal (field_opener name) (String dquote (D +:+ String dquote (String c X))) = None.
Proof.
  intros Hn HD Hc.
  destruct (strip_literal (field_opener name) _) as [r|] eqn:E; [exfalso|done].
  apply strip_literal_Some in E. unfold field_opener in E.
  rewrite str_app_cons, str_app_assoc, !str_app_cons in E. injection E as E.
  assert (D = name) as ->.
  { apply (f_equal not_quote_run) in E. by rewrite !not_quote_run_stop in E. }
  apply (inj (String.append _)) in E. congruence.
Qed.

Lemma match_capture_past_value name D c X :
  has_dquote name = false → has_dquote D = false → c ≠ ":"%char →
  match_capture (field_opener name) (String dquote (D +:+ String dquote (String c X)))
  = match_capture (field_opener name) (String dquote (String c X)).
Proof.
  intros Hn HD Hc. rewrite match_capture_next by by apply opener_not_at_value.
  unfold field_opener at 1 2. by rewrite match_capture_skip_clean.
Qed.

(** The best values after any list of chunks, from the whole text. *)
Lemma loop_finals id reads w :
  let st := (read_loop id reads (initialExtraction, w)).1 in
  accumulated st = concat_chunks reads.*1
  ∧ finalDeveloper st = default "" (match_capture devRe (concat_chunks reads.*1))
  ∧ finalMarketing st = default "" (match_capture mktRe (concat_chunks reads.*1)).
Proof.
  cbv zeta. rewrite read_loop_extraction. simpl fst.
  assert (accumulated (foldl extract_step initialExtraction reads.*1)
          = concat_chunks reads.*1) as Hacc by by rewrite accumulated_foldl.
  split; [done|]. rewrite <-Hacc. apply reachable_best. by eexists.
Qed.

Lemma devRe_on_swapped D M :
  has_dquote D = false → has_dquote M = false →
  match_capture devRe (swapped_payload D M) = Some D.
Proof.
  intros HD HM. unfold swapped_payload.
  change (match_capture devRe (String "{" (mktRe +:+ ?X)))
    with (match_capture devRe (String dquote X)).
  unfold devRe at 1. rewrite match_capture_past_value by done.
  change (match_capture (field_opener "developer_notes") (String dquote (String "," (devRe +:+ ?X))))
    with (Some (not_quote_run X)).
  by rewrite not_quote_run_stop.
Qed.

Lemma mktRe_on_swapped D M :
  has_dquote M = false → match_capture mktRe (swapped_payload D M) = Some M.
Proof.
  intros HM. unfold swapped_payload.
  change (match_capture mktRe (String "{" (mktRe +:+ ?X))) with (Some (not_quote_run X)).
  by rewrite not_quote_run_stop.
Qed.

Lemma spaced_field_app name value X :
  spaced_field name value +:+ X
  = String dquote (name +:+ String dquote (String ":" (String " " (String dquote
      (value +:+ String dquote X))))).
Proof.
  unfold spaced_field.
  by rewrite str_app_cons, str_app_assoc, !str_app_cons, str_app_assoc, str_app_cons.
Qed.

Lemma no_match_on_spaced name D M :
  name = "developer_notes" ∨ name = "marketing_notes" →
  has_dquote D = false → has_dquote M = false →
  match_capture (field_opener name) (spaced_payload D M) = None.
Proof.
  intros Hname HD HM. unfold spaced_payload.
  rewrite !spaced_field_app.
  assert (has_dquote name = false) as Hn by by destruct Hname as [-> | ->].
  assert (∀ X, match_capture (field_opener name)
            (String "{" (String newline ("  " +:+ String dquote ("developer_notes" +:+
               String dquote (String ":" (String " " (String dquote X)))))))
          = match_capture (field_opener name) (String dquote X)) as ->
    by by destruct Hname as [-> | ->].
  rewrite match_capture_past_value by done.
  assert (∀ X, match_capture (field_opener name)
            (String dquote (String "," (String newline ("  " +:+ String dquote
               ("marketing_notes" +:+
                String dquote (String ":" (String " " (String dquote X))))))))
          = match_capture (field_opener name) (String dquote X)) as ->
    by by destruct Hname as [-> | ->].
  rewrite match_capture_past_value by done.
  by destruct Hname as [-> | ->].
Qed.
End more_extractor.

(** ** A whole request, seen from its end *)

Section more_request.
Import Regex.
Implicit Types (w : World) (diff : DiffItem.t) (reads : list (string * Z)).

(** After a request that got a body: the last write carries the best
    values of the loop and the page shows them. *)
Lemma request_end diff reads ending endTime w :
  let id := DiffItem.id diff in
  let st := (read_loop id reads (initialExtraction, begin_request id w)).1 in
  let w' := fetchAIGeneratedDiff diff (FetchBody reads ending endTime) w in
  last (db_calls (db w'))
    = Some (DbUpdate id (summary_changes (finalDeveloper st) (finalMarketing st) endTime))
  ∧ generatedSummaries (notes w') !! id
    = Some {| developer := finalDeveloper st; marketing := finalMarketing st |}
  ∧ db_diffs (db w') !! id
    = (summary_changes (finalDeveloper st) (finalMarketing st) endTime ∪.)
        <$> db_diffs (db (read_loop id reads (initialExtraction, begin_request id w)).2) !! id.
Proof.
  cbv zeta. rewrite fetch_body_eq. cbv zeta. unfold stream_phase. simpl fst. simpl snd.
  split; [apply last_snoc|].
  pose proof (surfaced_is_best (DiffItem.id diff) reads w) as Hs. cbv zeta in Hs.
  split.
  - rewrite <-Hs. by destruct ending.
  - simpl. rewrite on_stream_end_db. apply update_lookup.
Qed.
End more_request.

Section extras_extractor.
Import Regex.
Implicit Types (w : World) (diff : DiffItem.t) (reads : list (string * Z)).

(** X1.  What the loop ends with depends on the text received and not
    on where it was cut into chunks: the buffer is the concatenation of
    the chunks and each best value is the capture of its pattern on that
    text, or empty when the pattern stands nowhere in it.  Two streams
    that carry the same text give the same best values. *)
Theorem extraction_ignores_chunk_boundaries (id : string) reads w :
  let st := (read_loop id reads (initialExtraction, w)).1 in
  let text := concat_chunks reads.*1 in
  accumulated st = text
  ∧ finalDeveloper st = default "" (match_capture devRe text)
  ∧ finalMarketing st = default "" (match_capture mktRe text)
  ∧ (∀ (id' : string) reads' w',
       concat_chunks reads'.*1 = text →
       let st' := (read_loop id' reads' (initialExtraction, w')).1 in
       finalDeveloper st' = finalDeveloper st ∧ finalMarketing st' = finalMarketing st).
Proof.
  cbv zeta. destruct (loop_finals id reads w) as (Ha & Hd & Hm).
  do 3 (split; [done|]). intros id' reads' w' Htext.
  destruct (loop_finals id' reads' w') as (_ & Hd' & Hm').
  cbv zeta in *. by rewrite Hd, Hm, Hd', Hm', Htext.
Qed.

(** X2.  The two patterns do not depend on the order of the fields: from
    the arguments object with the marketing field first, cut anywhere,
    the loop ends with the same two values, and the final write and the
    page carry them. *)
Theorem swapped_fields_are_extracted (D M : string) diff reads (endTime : Z) w :
  has_dquote D = false →
  has_dquote M = false →
  concat_chunks reads.*1 = swapped_payload D M →
  let id := DiffItem.id diff in
  let st := (read_loop id reads (initialExtraction, begin_request id w)).1 in
  let w' := fetchAIGeneratedDiff diff (FetchBody reads StreamDone endTime) w in
  finalDeveloper st = D ∧ finalMarketing st = M
  ∧ last (db_calls (db w')) = Some (DbUpdate id (summary_changes D M endTime))
  ∧ generatedSummaries (notes w') !! id = Some {| developer := D; marketing := M |}.
Proof.
  intros HD HM Htext. cbv zeta.
  destruct (loop_finals (DiffItem.id diff) reads (begin_request (DiffItem.id diff) w))
    as (_ & Hd & Hm).
  destruct (request_end diff reads StreamDone endTime w) as (Hlast & Hshown & _).
  cbv zeta in *. rewrite Htext, devRe_on_swapped in Hd by done.
  rewrite Htext, mktRe_on_swapped in Hm by done. simpl in Hd, Hm.
  by rewrite Hlast, Hshown, Hd, Hm.
Qed.

Lemma swapped_fields_are_extracted_witness :
  let reads := [ (String "{" (mktRe +:+ "Faster"), 1);
                 (" start" +:+ String dquote (String "," devRe), 2);
                 ("Cache the index" +:+ String dquote "}", 3) ] in
  let st := (read_loop "42" reads (initialExtraction, begin_request "42" listed42)).1 in
  let w' := fetchAIGeneratedDiff pr42 (FetchBody reads StreamDone 4) listed42 in
  finalDeveloper st = "Cache the index" ∧ finalMarketing st = "Faster start"
  ∧ last (db_calls (db w'))
    = Some (DbUpdate "42" (summary_changes "Cache the index" "Faster start" 4))
  ∧ generatedSummaries (notes w') !! "42"
    = Some {| developer := "Cache the index"; marketing := "Faster start" |}.
Proof.
  cbv zeta.
  apply (swapped_fields_are_extracted "Cache the index" "Faster start" pr42); compute_decide.
Defined.

(** X3.  The patterns want the colon directly between two quotes.  From
    the object laid out as the prompt of route.ts shows it, with a space
    behind each colon, nothing is extracted, however the text is cut:
    both best values stay empty, and the final write and the page carry
    two empty strings. *)
Theorem spaced_layout_is_not_extracted (D M : string) diff reads (endTime : Z) w :
  has_dquote D = false →
  has_dquote M = false →
  concat_chunks reads.*1 = spaced_payload D M →
  let id := DiffItem.id diff in
  let st := (read_loop id reads (initialExtraction, begin_request id w)).1 in
  let w' := fetchAIGeneratedDiff diff (FetchBody reads StreamDone endTime) w in
  finalDeveloper st = "" ∧ finalMarketing st = ""
  ∧ last (db_calls (db w')) = Some (DbUpdate id (summary_changes "" "" endTime))
  ∧ generatedSummaries (notes w') !! id = Some {| developer := ""; marketing := "" |}.
Proof.
  intros HD HM Htext. cbv zeta.
  destruct (loop_finals (DiffItem.id diff) reads (begin_request (DiffItem.id diff) w))
    as (_ & Hd & Hm).
  destruct (request_end diff reads StreamDone endTime w) as (Hlast & Hshown & _).
  cbv zeta in *. unfold devRe in Hd. unfold mktRe in Hm.
  rewrite Htext, no_match_on_spaced in Hd by auto.
  rewrite Htext, no_match_on_spaced in Hm by auto. simpl in Hd, Hm.
  by rewrite Hlast, Hshown, Hd, Hm.
Qed.

Lemma spaced_layout_is_not_extracted_witness :
  let reads := [ (String "{" (String newline ("  " +:+ spaced_field "developer_notes" "Fix")), 1);
                 (String "," (String newline ("  " +:+ spaced_field "marketing_notes" "Nice" +:+
                    String newline "}")), 2) ] in
  let st := (read_loop "42" reads (initialExtraction, begin_request "42" listed42)).1 in
  let w' := fetchAIGeneratedDiff pr42 (FetchBody reads StreamDone 4) listed42 in
  finalDeveloper st = "" ∧ finalMarketing st = ""
  ∧ last (db_calls (db w')) = Some (DbUpdate "42" (summary_changes "" "" 4))
  ∧ generatedSummaries (notes w') !! "42" = Some {| developer := ""; marketing := "" |}.
Proof.
  cbv zeta.
  apply (spaced_layout_is_not_extracted "Fix" "Nice" pr42); compute_decide.
Defined.
End extras_extractor.

(** ** The table under the operations of the page *)

Section more_table.
Implicit Types (t : gmap string Obj) (o changes : Obj) (w : World).

Lemma keyed_empty : keyed ∅.
Proof. intros k o H. by rewrite lookup_empty in H. Qed.

Lemma keyed_put t o : keyed t → keyed (Dexie.put t o).
Proof.
  intros Ht k o'. rewrite put_lookup. case_decide as Hk.
  - by intros [= <-].
  - apply Ht.
Qed.

Lemma keyed_foldl_put items t : keyed t → keyed (foldl Dexie.put t items).
Proof.
  revert t. induction items as [|o items IH]; intros t Ht; [done|].
  simpl. by apply IH, keyed_put.
Qed.

Lemma key_of_merged changes o :
  changes !! "id" = None → Dexie.key_of (changes ∪ o) = Dexie.key_of o.
Proof. intros H. unfold Dexie.key_of, Dexie.keyPath. by rewrite lookup_union_r. Qed.

Lemma keyed_update key changes t :
  changes !! "id" = None → keyed t → keyed (Dexie.update key changes t).1.
Proof.
  intros Hc Ht k o'. unfold Dexie.update.
  destruct (t !! key) as [o|] eqn:E; simpl; [|apply Ht].
  rewrite lookup_insert. case_decide as Hk.
  - intros [= <-]. subst k. rewrite key_of_merged by done. by apply Ht.
  - apply Ht.
Qed.

Lemma stamped_empty : stamped ∅.
Proof. intros k o H. by rewrite lookup_empty in H. Qed.

Lemma stamped_foldl_put items t :
  Forall (λ o, ∃ n, o !! "fetchedAt" = Some (PNum n)) items →
  stamped t → stamped (foldl Dexie.put t items).
Proof.
  intros Hitems Ht k o [Ho|Ho]%foldl_put_origin; [|by eapply Ht].
  rewrite Forall_forall in Hitems. by apply Hitems.
Qed.

Lemma stamped_update key changes t :
  changes !! "fetchedAt" = None → stamped t → stamped (Dexie.update key changes t).1.
Proof.
  intros Hc Ht k o'. unfold Dexie.update.
  destruct (t !! key) as [o|] eqn:E; simpl; [|apply Ht].
  rewrite lookup_insert. case_decide as Hk.
  - intros [= <-]. rewrite lookup_union_r by done. by eapply Ht.
  - apply Ht.
Qed.

Lemma summary_changes_no_id dev mkt now : summary_changes dev mkt now !! "id" = None.
Proof. by apply summary_changes_other. Qed.

Lemma summary_changes_no_stamp dev mkt now : summary_changes dev mkt now !! "fetchedAt" = None.
Proof. by apply summary_changes_other. Qed.

Lemma read_loop_table_ok id reads sw :
  table_ok (db_diffs (db sw.2)) →
  table_ok (db_diffs (db (read_loop id reads sw).2)).
Proof.
  intros H. induction reads as [|rd reads IH] using rev_ind; [done|].
  rewrite read_loop_snoc, loop_body_eq. cbv zeta. simpl. destruct IH as [IHk IHs].
  split; [apply keyed_update|apply stamped_update];
    auto using summary_changes_no_id, summary_changes_no_stamp.
Qed.

Lemma fetchAIGeneratedDiff_table_ok diff r w :
  table_ok (db_diffs (db w)) →
  table_ok (db_diffs (db (fetchAIGeneratedDiff diff r w))).
Proof.
  intros H. destruct r as [abort m|msg|reads ending endTime]; [done..|].
  rewrite fetch_body_eq. cbv zeta. simpl. rewrite on_stream_end_db.
  destruct (read_loop_table_ok (DiffItem.id diff) reads
              (initialExtraction, begin_request (DiffItem.id diff) w) H) as [Hk Hs].
  split; [apply keyed_update|apply stamped_update];
    auto using summary_changes_no_id, summary_changes_no_stamp.
Qed.

Lemma persist_diffs_db data now w :
  db_diffs (db (persist_diffs data now w))
  = match data !! "diffs" with
    | Some (JArr items) =>
        foldl Dexie.put (db_diffs (db w)) ((λ d : Obj, <["fetchedAt" := PNum now]> d) <$> items)
    | _ => db_diffs (db w)
    end.
Proof.
  unfold persist_diffs. destruct (data !! "diffs") as [[| items |]|]; try done.
  cbv zeta. unfold db_bulkPut, Dexie.bulkPut. simpl. by destruct (forallb _ _).
Qed.

Lemma fetchDiffs_db page r now w :
  db_diffs (db (fetchDiffs page r now w))
  = match r with
    | ListingData data => db_diffs (db (persist_diffs data now w))
    | ListingThrew _ => db_diffs (db w)
    end.
Proof. by destruct r. Qed.

Lemma fetchDiffs_table_ok page r now w :
  table_ok (db_diffs (db w)) → table_ok (db_diffs (db (fetchDiffs page r now w))).
Proof.
  intros [Hk Hs]. rewrite fetchDiffs_db. destruct r as [|data]; [done|].
  rewrite persist_diffs_db. destruct (data !! "diffs") as [[| items |]|]; try done.
  split; [by apply keyed_foldl_put|]. apply stamped_foldl_put; [|done].
  apply Forall_fmap, Forall_forall. intros d _. exists now. apply lookup_insert_eq.
Qed.

Lemma startup_db w : db (startup w) = db w.
Proof. unfold startup. by destruct (Dexie.toArray _). Qed.

Lemma start_requests_db started w : db (start_requests started w) = db w.
Proof.
  revert w. induction started as [|d started IH]; intros w; [done|].
  simpl. by rewrite IH.
Qed.
End more_table.

(** ** The startup effect *)

Section more_startup.
Implicit Types (t : gmap string Obj) (w : World) (m : gmap string Summary).

Lemma add_stored_summary_eq m d :
  add_stored_summary m d
  = match summary_of_record d, Dexie.key_of d with
    | Some s, Some k => <[k := s]> m
    | _, _ => m
    end.
Proof.
  unfold add_stored_summary, summary_of_record.
  destruct (truthy _ || truthy _); [|done]. by destruct (Dexie.key_of d).
Qed.

(** The entries made from a list of stored objects, read at one id. *)
Lemma stored_summaries_lookup (l : list (string * Obj)) m k :
  NoDup l.*1 →
  (∀ k' o, (k', o) ∈ l → Dexie.key_of o = Some k') →
  foldl add_stored_summary m l.*2 !! k
  = match (list_to_map l : gmap string Obj) !! k ≫= summary_of_record with
    | Some s => Some s
    | None => m !! k
    end.
Proof.
  revert m. induction l as [|[k1 o1] l IH]; intros m Hnd Hkeys; [done|].
  apply NoDup_cons in Hnd as [Hk1 Hnd]. simpl.
  rewrite IH; [|done|intros k' o Ho; apply Hkeys; by right].
  assert (Dexie.key_of o1 = Some k1) as Hko by (apply Hkeys; by left).
  rewrite add_stored_summary_eq, Hko.
  destruct (decide (k = k1)) as [->|Hne].
  - rewrite lookup_insert_eq, (not_elem_of_list_to_map_1 _ _ Hk1). simpl.
    destruct (summary_of_record o1); [by rewrite lookup_insert_eq|done].
  - rewrite lookup_insert_ne by done.
    destruct (list_to_map l !! k ≫= summary_of_record); [done|].
    destruct (summary_of_record o1); [by rewrite lookup_insert_ne|done].
Qed.

Lemma toArray_summaries t k :
  keyed t →
  foldl add_stored_summary ∅ (Dexie.toArray t) !! k = t !! k ≫= summary_of_record.
Proof.
  intros Ht. unfold Dexie.toArray.
  rewrite stored_summaries_lookup.
  - rewrite list_to_map_to_list. by destruct (t !! k ≫= summary_of_record).
  - apply NoDup_fst_map_to_list.
  - intros k' o Ho%elem_of_map_to_list. by apply Ht.
Qed.

Lemma toArray_nil t : Dexie.toArray t = [] → t = ∅.
Proof.
  unfold Dexie.toArray. intros H. apply map_to_list_empty_iff.
  by destruct (map_to_list t).
Qed.

Lemma startup_nil w : Dexie.toArray (db_diffs (db w)) = [] → startup w = w.
Proof. intros H. unfold startup. by rewrite H. Qed.

Lemma startup_summaries w :
  Dexie.toArray (db_diffs (db w)) ≠ [] →
  generatedSummaries (notes (startup w))
  = foldl add_stored_summary ∅ (Dexie.toArray (db_diffs (db w))).
Proof. intros H. unfold startup. by destruct (Dexie.toArray _). Qed.

(** What the page shows for an id right after it is mounted: the notes
    of the stored record, if the record has any. *)
Lemma remount_summaries w k :
  keyed (db_diffs (db w)) →
  generatedSummaries (notes (remount w)) !! k = db_diffs (db w) !! k ≫= summary_of_record.
Proof.
  intros Ht. unfold remount.
  destruct (Dexie.toArray (db_diffs (db w))) as [|d ds] eqn:E.
  - rewrite startup_nil by done. apply toArray_nil in E. rewrite E.
    simpl. by rewrite !lookup_empty.
  - rewrite startup_summaries by (simpl; by rewrite E).
    by apply toArray_summaries.
Qed.

Lemma remount_db w : db (remount w) = db w.
Proof. unfold remount. by rewrite startup_db. Qed.

Lemma remount_diffs w :
  diffs (listing (remount w)) = Some (Dexie.toArray (db_diffs (db w))).
Proof.
  unfold remount, startup. simpl. by destruct (Dexie.toArray (db_diffs (db w))).
Qed.

(** The entry made from a record that holds the given notes. *)
Lemma summary_of_merged dev mkt now (o : Obj) :
  summary_of_record (summary_changes dev mkt now ∪ o)
  = if String.eqb dev "" && String.eqb mkt "" then None
    else Some {| developer := dev; marketing := mkt |}.
Proof.
  unfold summary_of_record. destruct (merged_lookup dev mkt now o) as (-> & -> & _).
  simpl. by destruct (String.eqb dev ""), (String.eqb mkt "").
Qed.
End more_startup.

(** ** What a request touches *)

Section more_frame.
Implicit Types (w : World) (diff : DiffItem.t) (reads : list (string * Z)).

Lemma Notes_eq (n1 n2 : Notes) :
  generatedSummaries n1 = generatedSummaries n2 →
  loadingSummaries n1 = loadingSummaries n2 →
  summaryErrors n1 = summaryErrors n2 → n1 = n2.
Proof. destruct n1, n2. simpl. by intros -> -> ->. Qed.

(** A request leaves the listing alone and, for every other id, the
    entries of the page and the record of the table. *)
Lemma fetch_frame diff r w :
  let w' := fetchAIGeneratedDiff diff r w in
  listing w' = listing w
  ∧ ∀ k, k ≠ DiffItem.id diff →
      generatedSummaries (notes w') !! k = generatedSummaries (notes w) !! k
      ∧ loadingSummaries (notes w') !! k = loadingSummaries (notes w) !! k
      ∧ summaryErrors (notes w') !! k = summaryErrors (notes w) !! k
      ∧ db_diffs (db w') !! k = db_diffs (db w) !! k.
Proof.
  cbv zeta. destruct r as [abort m|msg|reads ending endTime].
  - split; [done|]. intros k Hk. simpl. by rewrite !lookup_insert_ne.
  - split; [done|]. intros k Hk. simpl. by rewrite !lookup_insert_ne.
  - rewrite fetch_body_eq. cbv zeta. unfold stream_phase. simpl fst. simpl snd.
    destruct (read_loop_frame (DiffItem.id diff) reads
                (initialExtraction, begin_request (DiffItem.id diff) w))
      as (_ & Hl & He & Hlo & Hd & Hg). cbv zeta in *. simpl in Hl, He, Hlo, Hd, Hg.
    split; [by destruct ending|]. intros k Hk.
    split; [destruct ending; simpl; by rewrite Hg, ?lookup_insert_ne|].
    split; [destruct ending; simpl; by rewrite lookup_insert_ne, Hlo, ?lookup_insert_ne|].
    split; [destruct ending; simpl; by rewrite ?lookup_insert_ne, He, ?lookup_insert_ne|].
    simpl. by rewrite on_stream_end_db, update_lookup_ne, Hd.
Qed.

(** The entries of the page for the request's own id when the request
    is over: they depend on what the environment did, not on the page
    the request started on. *)
Lemma fetch_own diff r w1 w2 :
  let w1' := fetchAIGeneratedDiff diff r w1 in
  let w2' := fetchAIGeneratedDiff diff r w2 in
  loadingSummaries (notes w1') !! DiffItem.id diff = Some false
  ∧ generatedSummaries (notes w1') !! DiffItem.id diff
    = generatedSummaries (notes w2') !! DiffItem.id diff
  ∧ summaryErrors (notes w1') !! DiffItem.id diff
    = summaryErrors (notes w2') !! DiffItem.id diff.
Proof.
  cbv zeta. destruct r as [abort m|msg|reads ending endTime].
  - simpl. by rewrite !lookup_insert_eq.
  - simpl. by rewrite !lookup_insert_eq.
  - destruct (request_end diff reads ending endTime w1) as (_ & -> & _).
    destruct (request_end diff reads ending endTime w2) as (_ & -> & _).
    rewrite !read_loop_extraction. simpl fst.
    rewrite !fetch_body_eq. cbv zeta. unfold stream_phase. simpl fst. simpl snd.
    split; [simpl; apply lookup_insert_eq|]. split; [done|].
    destruct (read_loop_frame (DiffItem.id diff) reads
                (initialExtraction, begin_request (DiffItem.id diff) w1))
      as (_ & _ & He1 & _).
    destruct (read_loop_frame (DiffItem.id diff) reads
                (initialExtraction, begin_request (DiffItem.id diff) w2))
      as (_ & _ & He2 & _).
    cbv zeta in *. destruct ending; simpl.
    + rewrite He1, He2. simpl. by rewrite !lookup_insert_eq.
    + by rewrite !lookup_insert_eq.
Qed.

(** The record of the request's own id afterwards depends on the record
    before and on nothing else of the page. *)
Lemma read_loop_own_record id reads w1 w2 :
  db_diffs (db w1) !! id = db_diffs (db w2) !! id →
  db_diffs (db (read_loop id reads (initialExtraction, begin_request id w1)).2) !! id
  = db_diffs (db (read_loop id reads (initialExtraction, begin_request id w2)).2) !! id.
Proof.
  intros H. induction reads as [|rd reads IH] using rev_ind; [done|].
  rewrite !read_loop_snoc.
  pose proof (loop_body_record id reads rd w1) as H1.
  pose proof (loop_body_record id reads rd w2) as H2.
  cbv zeta in H1, H2. rewrite H1, H2, IH.
  rewrite <-!read_loop_snoc, !read_loop_extraction. reflexivity.
Qed.

(** A record that is stored is still stored after the loop. *)
Lemma read_loop_record_present id reads w :
  is_Some (db_diffs (db w) !! id) →
  is_Some (db_diffs (db (read_loop id reads (initialExtraction, begin_request id w)).2) !! id).
Proof.
  intros H. induction reads as [|rd reads IH] using rev_ind; [done|].
  rewrite read_loop_snoc.
  pose proof (loop_body_record id reads rd w) as Hr. cbv zeta in Hr.
  rewrite Hr. destruct IH as [o1 ->]. by eexists.
Qed.

Lemma fetch_own_record diff r w1 w2 :
  db_diffs (db w1) !! DiffItem.id diff = db_diffs (db w2) !! DiffItem.id diff →
  db_diffs (db (fetchAIGeneratedDiff diff r w1)) !! DiffItem.id diff
  = db_diffs (db (fetchAIGeneratedDiff diff r w2)) !! DiffItem.id diff.
Proof.
  intros H. destruct r as [abort m|msg|reads ending endTime]; [done..|].
  destruct (request_end diff reads ending endTime w1) as (_ & _ & ->).
  destruct (request_end diff reads ending endTime w2) as (_ & _ & ->).
  rewrite (read_loop_own_record _ _ _ _ H), !read_loop_extraction. reflexivity.
Qed.
End more_frame.

Section extras_requests.
Implicit Types (w : World) (diff : DiffItem.t) (reads : list (string * Z)).

(** X4.  Whatever the page has been through, the table stores every
    object under the object's own [id], and every stored object carries
    the number [fetchedAt]. *)
Theorem reached_table_is_keyed (p : Page) :
  reached p → keyed (db_diffs (db (world p))) ∧ stamped (db_diffs (db (world p))).
Proof.
  change (reached p → table_ok (db_diffs (db (world p)))).
  induction 1 as [|p Hp IH|p page r now Hp IH|p r now Hp IH|p r now Hp IH|p diff r Hp IH
                  |p values Hp IH|p Hp IH|p confirmClear Hp IH]; simpl.
  - rewrite startup_db. split; [apply keyed_empty|apply stamped_empty].
  - by rewrite remount_db.
  - by apply fetchDiffs_table_ok.
  - by apply fetchDiffs_table_ok.
  - unfold handleLoadMoreClick. destruct (nextPage _) as [v|]; [|done].
    destruct (truthy_json _); [|done]. by apply fetchDiffs_table_ok.
  - by apply fetchAIGeneratedDiff_table_ok.
  - by rewrite start_requests_db.
  - unfold handleGenerateAllClick. destruct (allGenerated _); simpl;
      by rewrite start_requests_db.
  - destruct confirmClear; [|done]. split; [apply keyed_empty|apply stamped_empty].
Qed.

(** The sample page after its listing and one generation. *)
Lemma reached_table_is_keyed_witness :
  keyed (db_diffs (db noted42)) ∧ stamped (db_diffs (db noted42)).
Proof.
  apply (reached_table_is_keyed {| world := noted42; openItems := [] |}).
  apply (reached_generate {| world := listed42; openItems := [] |}).
  apply (reached_fetchDiffs {| world := startup initialWorld; openItems := [] |}).
  apply reached_mount.
Defined.

(** X5.  Notes survive a reload.  After a request that got a body, for a
    record that is stored, the record holds the two values the page
    shows; when the page is mounted anew it shows the same two values
    for the id, unless both are empty, in which case it shows no entry.
    For every id the newly mounted page shows what the stored record
    holds. *)
Theorem notes_survive_remount diff reads ending (endTime : Z) w :
  table_ok (db_diffs (db w)) →
  is_Some (db_diffs (db w) !! DiffItem.id diff) →
  let id := DiffItem.id diff in
  let w' := fetchAIGeneratedDiff diff (FetchBody reads ending endTime) w in
  ∃ e o',
    generatedSummaries (notes w') !! id = Some e
    ∧ db_diffs (db w') !! id = Some o'
    ∧ o' !! "summaryDeveloper" = Some (PStr (developer e))
    ∧ o' !! "summaryMarketing" = Some (PStr (marketing e))
    ∧ generatedSummaries (notes (remount w')) !! id
      = (if String.eqb (developer e) "" && String.eqb (marketing e) "" then None else Some e)
    ∧ ∀ k, generatedSummaries (notes (remount w')) !! k
           = db_diffs (db w') !! k ≫= summary_of_record.
Proof.
  intros Hok [o Ho]. cbv zeta.
  pose proof (fetchAIGeneratedDiff_table_ok diff (FetchBody reads ending endTime) w Hok)
    as [Hk' _].
  destruct (request_end diff reads ending endTime w) as (_ & Hshown & Hrec).
  cbv zeta in *.
  destruct (read_loop_record_present (DiffItem.id diff) reads w) as [o1 Ho1]; [by eexists|].
  rewrite Ho1 in Hrec.
  eexists _, _. split; [exact Hshown|]. split; [exact Hrec|].
  destruct (merged_lookup
    (finalDeveloper (read_loop (DiffItem.id diff) reads
       (initialExtraction, begin_request (DiffItem.id diff) w)).1)
    (finalMarketing (read_loop (DiffItem.id diff) reads
       (initialExtraction, begin_request (DiffItem.id diff) w)).1) endTime o1)
    as (Hd & Hm & _).
  do 2 (split; [done|]). split.
  - rewrite remount_summaries by done. rewrite Hrec. apply summary_of_merged.
  - intros k. by apply remount_summaries.
Qed.

Lemma notes_survive_remount_witness :
  let w' := fetchAIGeneratedDiff pr42
              (FetchBody [(payload "Cache the index" "Faster start", 8)] StreamDone 9) listed42 in
  ∃ e o',
    generatedSummaries (notes w') !! "42" = Some e
    ∧ db_diffs (db w') !! "42" = Some o'
    ∧ o' !! "summaryDeveloper" = Some (PStr (developer e))
    ∧ o' !! "summaryMarketing" = Some (PStr (marketing e))
    ∧ generatedSummaries (notes (remount w')) !! "42"
      = (if String.eqb (developer e) "" && String.eqb (marketing e) "" then None else Some e)
    ∧ ∀ k, generatedSummaries (notes (remount w')) !! k
           = db_diffs (db w') !! k ≫= summary_of_record.
Proof.
  cbv zeta.
  apply (notes_survive_remount pr42 [(payload "Cache the index" "Faster start", 8)]
           StreamDone 9 listed42).
  - apply (fetchDiffs_table_ok 1 _ 5 initialWorld).
    split; [apply keyed_empty|apply stamped_empty].
  - apply (bool_decide_unpack _). vm_compute. exact I.
Defined.
End extras_requests.

Section extras_failures.
Implicit Types (w : World) (diff : DiffItem.t) (reads : list (string * Z)).

(** X6.  A request that gets no body writes nothing: whether the fetch
    threw (an abort is reported as a timeout, any other error by its
    message or a default) or the response was not ok, the database is as
    before, while the page shows two empty strings for the id, the
    message, and no spinner.  So the notes stored before are what a
    newly mounted page shows for the id. *)
Theorem failed_fetch_writes_nothing diff w :
  let id := DiffItem.id diff in
  (∀ (isAbortError : bool) (m : string),
     let w' := fetchAIGeneratedDiff diff (FetchThrew isAbortError m) w in
     let message := if isAbortError then "Request timed out. Please try again."
                    else or_str m "Failed to fetch AI generated summary." in
     db w' = db w
     ∧ generatedSummaries (notes w') !! id = Some {| developer := ""; marketing := "" |}
     ∧ loadingSummaries (notes w') !! id = Some false
     ∧ summaryErrors (notes w') !! id = Some message
     ∧ message ≠ ""
     ∧ console w' = console w ++ [(LogError, ["AI generation error:"; message])]
     ∧ (keyed (db_diffs (db w)) →
        generatedSummaries (notes (remount w')) !! id
        = db_diffs (db w) !! id ≫= summary_of_record))
  ∧ (∀ (errorMsg : string),
       let w' := fetchAIGeneratedDiff diff (FetchNotOk errorMsg) w in
       db w' = db w
       ∧ generatedSummaries (notes w') !! id = Some {| developer := ""; marketing := "" |}
       ∧ loadingSummaries (notes w') !! id = Some false
       ∧ summaryErrors (notes w') !! id = Some errorMsg
       ∧ console w' = console w ++ [(LogError, [errorMsg])]
       ∧ (keyed (db_diffs (db w)) →
          generatedSummaries (notes (remount w')) !! id
          = db_diffs (db w) !! id ≫= summary_of_record)).
Proof.
  cbv zeta. split.
  - intros abort m. simpl. rewrite !lookup_insert_eq.
    do 4 (split; [done|]). split; [by destruct abort, m|]. split; [done|].
    intros Hk. by rewrite remount_summaries.
  - intros msg. simpl. rewrite !lookup_insert_eq.
    do 5 (split; [done|]). intros Hk. by rewrite remount_summaries.
Qed.

(** X7.  A request is local to its id.  While it reads its stream,
    after any number of chunks and whenever React runs the functions of
    the loop, the spinner of its id is on; nothing in the loop switches
    it off.  When the request is over, whichever way
    the environment ended it, the spinner of its id is off, the listing
    is as before, and for every other id the notes shown, the spinner,
    the message and the stored record are as before. *)
Theorem request_is_local diff (r : FetchOutcome) w :
  let id := DiffItem.id diff in
  let w' := fetchAIGeneratedDiff diff r w in
  (∀ ticks : list Tick,
     loadingSummaries (notes (run_world (run_loop id ticks w))) !! id = Some true)
  ∧ loadingSummaries (notes w') !! id = Some false
  ∧ is_Some (generatedSummaries (notes w') !! id)
  ∧ is_Some (summaryErrors (notes w') !! id)
  ∧ listing w' = listing w
  ∧ ∀ k, k ≠ id →
      generatedSummaries (notes w') !! k = generatedSummaries (notes w) !! k
      ∧ loadingSummaries (notes w') !! k = loadingSummaries (notes w) !! k
      ∧ summaryErrors (notes w') !! k = summaryErrors (notes w) !! k
      ∧ db_diffs (db w') !! k = db_diffs (db w) !! k.
Proof.
  cbv zeta. destruct (fetch_own diff r w w) as (Hl & _ & _).
  split.
  { intros ticks. unfold run_loop.
    destruct (run_ticks_frame (DiffItem.id diff) ticks
                {| run_vars := initialExtraction; run_queued := 0;
                   run_world := begin_request (DiffItem.id diff) w |})
      as (_ & _ & _ & Hs & _). cbv zeta in Hs. rewrite Hs. simpl.
    apply lookup_insert_eq. }
  split; [exact Hl|]. split; [|split; [|apply fetch_frame]].
  - destruct r as [abort m|msg|reads ending endTime].
    + simpl. rewrite lookup_insert_eq. by eexists.
    + simpl. rewrite lookup_insert_eq. by eexists.
    + destruct (request_end diff reads ending endTime w) as (_ & -> & _). by eexists.
  - destruct r as [abort m|msg|reads ending endTime].
    + simpl. rewrite lookup_insert_eq. by eexists.
    + simpl. rewrite lookup_insert_eq. by eexists.
    + rewrite fetch_body_eq. cbv zeta. unfold stream_phase. simpl fst. simpl snd.
      destruct (read_loop_frame (DiffItem.id diff) reads
                  (initialExtraction, begin_request (DiffItem.id diff) w))
        as (_ & _ & He & _). cbv zeta in He.
      destruct ending; simpl.
      * rewrite He. simpl. rewrite lookup_insert_eq. by eexists.
      * rewrite lookup_insert_eq. by eexists.
Qed.

(** X8.  Requests for different ids do not interfere: run one after the
    other in either order, they leave the same table, the same entries
    of the page and the same listing. *)
Theorem requests_for_different_ids_commute diff1 diff2 (r1 r2 : FetchOutcome) w :
  DiffItem.id diff1 ≠ DiffItem.id diff2 →
  let w12 := fetchAIGeneratedDiff diff2 r2 (fetchAIGeneratedDiff diff1 r1 w) in
  let w21 := fetchAIGeneratedDiff diff1 r1 (fetchAIGeneratedDiff diff2 r2 w) in
  db_diffs (db w12) = db_diffs (db w21)
  ∧ notes w12 = notes w21
  ∧ listing w12 = listing w21.
Proof.
  intros Hne. cbv zeta.
  set (w1 := fetchAIGeneratedDiff diff1 r1 w).
  set (w2 := fetchAIGeneratedDiff diff2 r2 w).
  destruct (fetch_frame diff1 r1 w) as [Hl1 Hf1].
  destruct (fetch_frame diff2 r2 w) as [Hl2 Hf2].
  destruct (fetch_frame diff2 r2 w1) as [Hl12 Hf12].
  destruct (fetch_frame diff1 r1 w2) as [Hl21 Hf21].
  destruct (fetch_own diff1 r1 w2 w) as (Ho1l & Ho1g & Ho1e).
  destruct (fetch_own diff2 r2 w1 w) as (Ho2l & Ho2g & Ho2e).
  destruct (fetch_own diff1 r1 w w) as (Ho1l' & _ & _).
  destruct (fetch_own diff2 r2 w w) as (Ho2l' & _ & _).
  cbv zeta in *. fold w1 w2 in Hf1, Hf2, Hl1, Hl2, Ho1l', Ho2l', Ho1g, Ho1e, Ho2g, Ho2e.
  assert (∀ k,
    generatedSummaries (notes (fetchAIGeneratedDiff diff2 r2 w1)) !! k
    = generatedSummaries (notes (fetchAIGeneratedDiff diff1 r1 w2)) !! k
    ∧ loadingSummaries (notes (fetchAIGeneratedDiff diff2 r2 w1)) !! k
      = loadingSummaries (notes (fetchAIGeneratedDiff diff1 r1 w2)) !! k
    ∧ summaryErrors (notes (fetchAIGeneratedDiff diff2 r2 w1)) !! k
      = summaryErrors (notes (fetchAIGeneratedDiff diff1 r1 w2)) !! k
    ∧ db_diffs (db (fetchAIGeneratedDiff diff2 r2 w1)) !! k
      = db_diffs (db (fetchAIGeneratedDiff diff1 r1 w2)) !! k) as Hall.
  { intros k.
    destruct (decide (k = DiffItem.id diff1)) as [->|Hk1];
      [|destruct (decide (k = DiffItem.id diff2)) as [->|Hk2]].
    - destruct (Hf12 _ Hne) as (-> & -> & -> & ->).
      destruct (Hf2 _ Hne) as (_ & _ & _ & Hd).
      rewrite Ho1l, Ho1l', Ho1g, Ho1e.
      repeat split; try done.
      apply fetch_own_record. by rewrite Hd.
    - assert (DiffItem.id diff2 ≠ DiffItem.id diff1) as Hne' by done.
      destruct (Hf21 _ Hne') as (-> & -> & -> & ->).
      destruct (Hf1 _ Hne') as (_ & _ & _ & Hd).
      rewrite Ho2l, Ho2l', Ho2g, Ho2e.
      repeat split; try done.
      symmetry. apply fetch_own_record. by rewrite Hd.
    - destruct (Hf12 _ Hk2) as (-> & -> & -> & ->).
      destruct (Hf21 _ Hk1) as (-> & -> & -> & ->).
      destruct (Hf1 _ Hk1) as (-> & -> & -> & ->).
      by destruct (Hf2 _ Hk2) as (-> & -> & -> & ->). }
  split; [apply map_eq; intros k; apply Hall|].
  split; [|by rewrite Hl12, Hl21, Hl1, Hl2].
  apply Notes_eq; apply map_eq; intros k; apply Hall.
Qed.

(** Two generations on the sample page, one of them for an id that is
    not listed. *)
Lemma requests_for_different_ids_commute_witness :
  let other := {| DiffItem.id := "43"; DiffItem.description := "d";
                  DiffItem.diff := "x"; DiffItem.url := "u" |} in
  let r1 := FetchBody [(payload "Cache the index" "Faster start", 8)] StreamDone 9 in
  let r2 := FetchThrew true "" in
  let w12 := fetchAIGeneratedDiff other r2 (fetchAIGeneratedDiff pr42 r1 listed42) in
  let w21 := fetchAIGeneratedDiff pr42 r1 (fetchAIGeneratedDiff other r2 listed42) in
  db_diffs (db w12) = db_diffs (db w21)
  ∧ notes w12 = notes w21
  ∧ listing w12 = listing w21.
Proof.
  cbv zeta. by apply (requests_for_different_ids_commute pr42).
Defined.
End extras_failures.

(** ** The listing *)

Section more_listing.
Implicit Types (w : World) (items : list Obj) (data : gmap string Json).

Lemma fetchDiffs_listing page data items now w :
  data !! "diffs" = Some (JArr items) →
  listing (fetchDiffs page (ListingData data) now w)
  = {| diffs := if page =? 1 then Some items
                else (λ prev, prev ++ items) <$> diffs (listing w);
       isLoading := false; error := None;
       currentPage := data !! "currentPage"; nextPage := data !! "nextPage";
       initialFetchDone := true |}.
Proof.
  intros H. unfold fetchDiffs. cbv zeta. rewrite H. simpl.
  destruct (page =? 1); [done|]. by destruct (diffs (listing w)).
Qed.

Lemma fetchDiffs_notes page r now w : notes (fetchDiffs page r now w) = notes w.
Proof.
  destruct r as [m|data]; [done|]. unfold fetchDiffs, persist_diffs. cbv zeta. simpl.
  destruct (data !! "diffs") as [[| items |]|]; try done.
  cbv zeta. unfold db_bulkPut, Dexie.bulkPut. simpl. by destruct (forallb _ _).
Qed.

Lemma fetchDiffs_failed page m now w :
  fetchDiffs page (ListingThrew m) now w
  = with_listing (λ l, {| diffs := diffs l; isLoading := false;
                          error := Some (default "An unknown error occurred" m);
                          currentPage := currentPage l; nextPage := nextPage l;
                          initialFetchDone := initialFetchDone l |}) w.
Proof. reflexivity. Qed.

Lemma fetchDiffs_table page data items now w :
  data !! "diffs" = Some (JArr items) →
  db_diffs (db (fetchDiffs page (ListingData data) now w))
  = foldl Dexie.put (db_diffs (db w)) ((λ d : Obj, <["fetchedAt" := PNum now]> d) <$> items).
Proof. intros H. by rewrite fetchDiffs_db, persist_diffs_db, H. Qed.
End more_listing.

Section extras_listing.
Implicit Types (w : World) (items : list Obj) (data : gmap string Json).

(** X9.  Pages accumulate.  The button that fetches the latest diffs
    shows exactly the records of the response, whatever was listed; the
    button that loads more, on a next page that is neither 0 nor 1, puts
    the records of its response behind them and takes over the paging
    state, and both store their records in the table.  When loading more
    fails, the list, the paging state and the table stay and the error
    is shown. *)
Theorem listing_pages_accumulate items1 items2 data1 data2 (n now1 now2 : Z) w :
  data1 !! "diffs" = Some (JArr items1) →
  data1 !! "nextPage" = Some (JPrim (PNum n)) →
  n ≠ 0 → n ≠ 1 →
  data2 !! "diffs" = Some (JArr items2) →
  let stamp (now : Z) := (λ d : Obj, <["fetchedAt" := PNum now]> d) in
  let w1 := handleFetchClick (ListingData data1) now1 w in
  let w2 := handleLoadMoreClick (ListingData data2) now2 w1 in
  diffs (listing w1) = Some items1
  ∧ diffs (listing w2) = Some (items1 ++ items2)
  ∧ currentPage (listing w2) = data2 !! "currentPage"
  ∧ nextPage (listing w2) = data2 !! "nextPage"
  ∧ error (listing w2) = None ∧ isLoading (listing w2) = false
  ∧ db_diffs (db w2)
    = foldl Dexie.put (foldl Dexie.put (db_diffs (db w)) (stamp now1 <$> items1))
        (stamp now2 <$> items2)
  ∧ notes w2 = notes w
  ∧ (∀ m, let w2' := handleLoadMoreClick (ListingThrew m) now2 w1 in
          diffs (listing w2') = Some items1
          ∧ nextPage (listing w2') = Some (JPrim (PNum n))
          ∧ error (listing w2') = Some (default "An unknown error occurred" m)
          ∧ isLoading (listing w2') = false
          ∧ db w2' = db w1).
Proof.
  intros H1 Hn Hn0 Hn1 H2. cbv zeta.
  assert (listing (handleFetchClick (ListingData data1) now1 w)
          = {| diffs := Some items1; isLoading := false; error := None;
               currentPage := data1 !! "currentPage"; nextPage := Some (JPrim (PNum n));
               initialFetchDone := true |}) as Hl1.
  { unfold handleFetchClick. rewrite (fetchDiffs_listing _ _ _ _ _ H1). by rewrite Hn. }
  assert (db_diffs (db (handleFetchClick (ListingData data1) now1 w))
          = foldl Dexie.put (db_diffs (db w))
              ((λ d : Obj, <["fetchedAt" := PNum now1]> d) <$> items1)) as Hdb1.
  { unfold handleFetchClick. by rewrite (fetchDiffs_table _ _ _ _ _ H1). }
  assert (notes (handleFetchClick (ListingData data1) now1 w) = notes w) as Hnotes1.
  { unfold handleFetchClick. by rewrite fetchDiffs_notes. }
  set (w1 := handleFetchClick (ListingData data1) now1 w) in *. clearbody w1.
  assert (∀ r, handleLoadMoreClick r now2 w1 = fetchDiffs n r now2 w1) as Hmore.
  { intros r. unfold handleLoadMoreClick. rewrite Hl1.
    cbn [nextPage truthy_json page_of truthy]. by rewrite (proj2 (Z.eqb_neq n 0)). }
  rewrite !Hmore, (fetchDiffs_listing _ _ _ _ _ H2), Hl1,
    (fetchDiffs_table _ _ _ _ _ H2), fetchDiffs_notes, Hdb1, Hnotes1.
  rewrite (proj2 (Z.eqb_neq n 1)) by done.
  do 8 (split; [done|]).
  intros m. cbv zeta. rewrite Hmore, fetchDiffs_failed.
  unfold with_listing. cbn [listing db diffs nextPage error isLoading]. by rewrite Hl1.
Qed.

Lemma listing_pages_accumulate_witness :
  let d43 : Obj := {[ "id" := PStr "43"; "description" := PStr "Add a cache";
                      "diff" := PStr "+ c"; "url" := PStr "u" ]} in
  let data1 := ApiResponse_json [DiffItem.to_obj pr42] (Some 2) 1 10 in
  let data2 := ApiResponse_json [d43] None 2 10 in
  let w1 := handleFetchClick (ListingData data1) 5 noted42 in
  let w2 := handleLoadMoreClick (ListingData data2) 6 w1 in
  diffs (listing w2) = Some ([DiffItem.to_obj pr42] ++ [d43])
  ∧ nextPage (listing w2) = Some (JPrim PNull)
  ∧ notes w2 = notes noted42.
Proof.
  cbv zeta.
  pose proof (listing_pages_accumulate [DiffItem.to_obj pr42]
    [{[ "id" := PStr "43"; "description" := PStr "Add a cache";
        "diff" := PStr "+ c"; "url" := PStr "u" ]}]
    (ApiResponse_json [DiffItem.to_obj pr42] (Some 2) 1 10)
    (ApiResponse_json [{[ "id" := PStr "43"; "description" := PStr "Add a cache";
        "diff" := PStr "+ c"; "url" := PStr "u" ]}] None 2 10) 2 5 6 noted42) as H.
  cbv zeta in H.
  destruct H as (_ & Hd & _ & Hn & _ & _ & _ & Hnotes & _); [done..|].
  split; [exact Hd|]. split; [exact Hn|exact Hnotes].
Defined.

(** X10.  Without a next page the button that loads more does nothing:
    when the cell holds null, 0 or nothing, the page is left exactly as
    it was and no request is made. *)
Theorem load_more_needs_next_page (r : ListingOutcome) (now : Z) w :
  nextPage (listing w) = None
  ∨ nextPage (listing w) = Some (JPrim PNull)
  ∨ nextPage (listing w) = Some (JPrim (PNum 0)) →
  handleLoadMoreClick r now w = w.
Proof.
  intros H. unfold handleLoadMoreClick. by destruct H as [->|[->| ->]].
Qed.

Lemma load_more_needs_next_page_witness :
  handleLoadMoreClick (ListingThrew None) 7 listed42 = listed42.
Proof. apply load_more_needs_next_page. right. left. compute_decide. Defined.
End extras_listing.

Section extras_storage.
Implicit Types (w : World) (p : Page).

(** X11.  Listing a pull request again forgets its stored notes.  When
    a response of the listing holds a record, once by its id, the page
    keeps showing the notes it showed, but the table now holds the bare
    record with its fetch time, so that a page mounted anew on the same
    database shows no notes for it. *)
Theorem relisting_forgets_stored_notes (rs : list DiffItem.t) (d : DiffItem.t)
    (np : option Z) (cp pp page now : Z) w :
  keyed (db_diffs (db w)) →
  d ∈ rs →
  (∀ d', d' ∈ rs → DiffItem.id d' = DiffItem.id d → d' = d) →
  let w' := fetchDiffs page
              (ListingData (ApiResponse_json (DiffItem.to_obj <$> rs) np cp pp)) now w in
  notes w' = notes w
  ∧ db_diffs (db w') !! DiffItem.id d
    = Some (<["fetchedAt" := PNum now]> (DiffItem.to_obj d))
  ∧ generatedSummaries (notes (remount w')) !! DiffItem.id d = None.
Proof.
  intros Hk Hd Huniq. cbv zeta.
  split; [apply fetchDiffs_notes|].
  assert (db_diffs (db (fetchDiffs page
            (ListingData (ApiResponse_json (DiffItem.to_obj <$> rs) np cp pp)) now w))
          = foldl Dexie.put (db_diffs (db w))
              ((λ o : Obj, <["fetchedAt" := PNum now]> o) <$> (DiffItem.to_obj <$> rs))) as Hdb.
  { by apply fetchDiffs_table. }
  assert (db_diffs (db (fetchDiffs page
            (ListingData (ApiResponse_json (DiffItem.to_obj <$> rs) np cp pp)) now w))
            !! DiffItem.id d
          = Some (<["fetchedAt" := PNum now]> (DiffItem.to_obj d))) as Hrec.
  { rewrite Hdb. apply foldl_put_stored.
    - apply list_elem_of_fmap. eexists. split; [done|].
      apply list_elem_of_fmap. eauto.
    - apply entity_key.
    - intros o' (o & -> & (d' & -> & Hd')%list_elem_of_fmap)%list_elem_of_fmap Hk'.
      rewrite entity_key in Hk'. injection Hk' as Hk'. by rewrite (Huniq d' Hd' Hk'). }
  split; [done|].
  rewrite remount_summaries, Hrec; [done|].
  rewrite Hdb. by apply keyed_foldl_put.
Qed.

Lemma relisting_forgets_stored_notes_witness :
  let w' := fetchDiffs 1 (ListingData (ApiResponse_json [DiffItem.to_obj pr42] None 1 10))
              8 noted42 in
  generatedSummaries (notes noted42) !! "42"
    = Some {| developer := "Old dev"; marketing := "Old mkt" |}
  ∧ generatedSummaries (notes w') !! "42"
    = Some {| developer := "Old dev"; marketing := "Old mkt" |}
  ∧ generatedSummaries (notes (remount w')) !! "42" = None.
Proof.
  cbv zeta.
  assert (keyed (db_diffs (db noted42))) as Hk.
  { unfold noted42, listed42. apply fetchAIGeneratedDiff_table_ok, fetchDiffs_table_ok.
    split; [apply keyed_empty|apply stamped_empty]. }
  destruct (relisting_forgets_stored_notes [pr42] pr42 None 1 10 1 8 noted42 Hk)
    as (Hn & _ & Hr).
  { by apply list_elem_of_singleton. }
  { by intros d' ->%list_elem_of_singleton _. }
  split; [compute_decide|]. split; [|exact Hr].
  change (DiffItem.to_obj <$> [pr42]) with [DiffItem.to_obj pr42] in Hn.
  rewrite Hn. compute_decide.
Defined.

(** X12.  Clearing the storage.  When the dialogue is declined nothing
    changes.  When it is confirmed the table is empty, nothing is
    listed, no panel is open and no id has notes, a spinner or an error;
    a page mounted anew on the database lists nothing and shows no
    notes; no handler of the panels starts a request; and clearing again
    changes nothing. *)
Theorem cleared_storage_stays_cleared p (values : list string) :
  let p' := handleClearStorage true p in
  handleClearStorage false p = p
  ∧ db_diffs (db (world p')) = ∅
  ∧ listed (world p') = []
  ∧ openItems p' = []
  ∧ notes (world p') = notes initialWorld
  ∧ diffs (listing (remount (world p'))) = Some []
  ∧ notes (remount (world p')) = notes initialWorld
  ∧ (handleAccordionChange values p').1 = []
  ∧ (handleGenerateAllClick p').1 = []
  ∧ handleClearStorage true p' = p'.
Proof.
  cbv zeta. split; [done|]. split; [done|]. split; [done|]. split; [done|].
  split; [done|]. split.
  { rewrite remount_diffs. done. }
  split; [done|]. split.
  { unfold handleAccordionChange. cbv zeta. simpl.
    by induction (filter _ values). }
  split; done.
Qed.
End extras_storage.

(** ** The handlers of the panels *)

Section more_handlers.
Implicit Types (w : World) (p : Page) (d : Obj) (id : string).

Lemma find_diff_Some w id d :
  find_diff w id = Some d → d ∈ listed w ∧ d !! "id" = Some (PStr id).
Proof.
  unfold find_diff. intros [Hin Hd]%find_some. split; [by apply list_elem_of_In|].
  by apply bool_decide_eq_true in Hd.
Qed.

Lemma obj_id_of d id : d !! "id" = Some (PStr id) → obj_id d = id.
Proof. unfold obj_id. by intros ->. Qed.

Lemma should_generate_Some w id d :
  should_generate w id = Some d
  ↔ is_loading w id = false ∧ find_diff w id = Some d
    ∧ has_developer w id = false ∧ has_marketing w id = false.
Proof.
  unfold should_generate.
  destruct (is_loading w id), (find_diff w id) as [d'|],
    (has_developer w id), (has_marketing w id); simpl;
    (split; [by intros [= ->]|intros (? & ? & ? & ?); congruence]).
Qed.

Lemma start_requests_snoc started d w :
  start_requests (started ++ [d]) w = begin_request (obj_id d) (start_requests started w).
Proof. unfold start_requests. by rewrite foldl_snoc. Qed.

Lemma start_requests_listing started w : listing (start_requests started w) = listing w.
Proof.
  induction started as [|d started IH] using rev_ind; [done|].
  by rewrite start_requests_snoc.
Qed.

(** The entries of an id for which a request was started, and of the
    others. *)
Lemma start_requests_notes started w id :
  let w' := start_requests started w in
  (id ∈ obj_id <$> started →
     generatedSummaries (notes w') !! id = Some {| developer := ""; marketing := "" |}
     ∧ loadingSummaries (notes w') !! id = Some true
     ∧ summaryErrors (notes w') !! id = Some "")
  ∧ (id ∉ obj_id <$> started →
     generatedSummaries (notes w') !! id = generatedSummaries (notes w) !! id
     ∧ loadingSummaries (notes w') !! id = loadingSummaries (notes w) !! id
     ∧ summaryErrors (notes w') !! id = summaryErrors (notes w) !! id).
Proof.
  cbv zeta. induction started as [|d started [IHin IHout]] using rev_ind.
  { split; [by intros ?%elem_of_nil|done]. }
  rewrite start_requests_snoc, fmap_app. simpl.
  destruct (decide (id = obj_id d)) as [->|Hne].
  - split.
    + intros _. by rewrite !lookup_insert_eq.
    + intros []. apply elem_of_app. right. by apply list_elem_of_singleton.
  - rewrite !lookup_insert_ne by done. split.
    + intros [Hin|Hd%list_elem_of_singleton]%elem_of_app; [auto|done].
    + intros Hout. apply IHout. intros Hin. apply Hout, elem_of_app. by left.
Qed.

Lemma allGenerated_true w :
  allGenerated w = true ↔
  listed w ≠ [] ∧
  ∀ d, d ∈ listed w →
    has_developer w (obj_id d) = true ∧ has_marketing w (obj_id d) = true
    ∧ is_loading w (obj_id d) = false.
Proof.
  unfold allGenerated. destruct (listed w) as [|d0 ds] eqn:E.
  { split; [done|]. by intros [[] _]. }
  rewrite forallb_forall. split.
  - intros Hall. split; [done|]. intros d Hd%list_elem_of_In. specialize (Hall d Hd).
    apply andb_prop in Hall as [[H1 H2]%andb_prop H3]. by apply negb_true_iff in H3.
  - intros [_ Hall] d Hd%list_elem_of_In. by destruct (Hall d Hd) as (-> & -> & ->).
Qed.

Lemma filter_all {A} (P : A → Prop) `{!∀ x, Decision (P x)} (l : list A) :
  (∀ x, x ∈ l → P x) → filter P l = l.
Proof.
  induction l as [|x l IH]; intros Hall; [done|].
  rewrite filter_cons_True by (apply Hall; by left). f_equal. apply IH.
  intros y Hy. apply Hall. by right.
Qed.

Lemma filter_none {A} (P : A → Prop) `{!∀ x, Decision (P x)} (l : list A) :
  (∀ x, x ∈ l → ¬ P x) → filter P l = [].
Proof.
  induction l as [|x l IH]; intros Hall; [done|].
  rewrite filter_cons_False by (apply Hall; by left). apply IH.
  intros y Hy. apply Hall. by right.
Qed.
End more_handlers.

Section extras_handlers.
Implicit Types (w : World) (p : Page) (d : Obj) (id : string).

(** X13.  Opening panels starts a request exactly for the ids that are
    newly opened, have no spinner, are listed and have neither note yet,
    with the first listed record of that id; so an id that stays open,
    or has a note, or is loading, never gets a request.  For each
    started request the page shows empty notes, the spinner and no error
    when the handler returns; the entries of every other id, the listing
    and the database are as before; and the same set of panels reported
    again starts nothing. *)
Theorem accordion_requests_only_missing_notes (values : list string) p :
  let r := handleAccordionChange values p in
  openItems r.2 = values
  ∧ (∀ d, d ∈ r.1 ↔
       ∃ id, id ∈ values ∧ (id ∉ openItems p) ∧ is_loading (world p) id = false
             ∧ find_diff (world p) id = Some d
             ∧ has_developer (world p) id = false ∧ has_marketing (world p) id = false)
  ∧ (∀ d, d ∈ r.1 →
       d ∈ listed (world p)
       ∧ generatedSummaries (notes (world r.2)) !! obj_id d
         = Some {| developer := ""; marketing := "" |}
       ∧ loadingSummaries (notes (world r.2)) !! obj_id d = Some true
       ∧ summaryErrors (notes (world r.2)) !! obj_id d = Some "")
  ∧ (∀ id, id ∉ obj_id <$> r.1 →
       generatedSummaries (notes (world r.2)) !! id
         = generatedSummaries (notes (world p)) !! id
       ∧ loadingSummaries (notes (world r.2)) !! id
         = loadingSummaries (notes (world p)) !! id
       ∧ summaryErrors (notes (world r.2)) !! id = summaryErrors (notes (world p)) !! id)
  ∧ listing (world r.2) = listing (world p)
  ∧ db (world r.2) = db (world p)
  ∧ (handleAccordionChange values r.2).1 = [].
Proof.
  cbv zeta. unfold handleAccordionChange. cbv zeta. simpl.
  set (started := omap (should_generate (world p)) (filter (λ v, v ∉ openItems p) values)).
  assert (∀ d, d ∈ started ↔
            ∃ id, id ∈ values ∧ (id ∉ openItems p) ∧ is_loading (world p) id = false
                  ∧ find_diff (world p) id = Some d
                  ∧ has_developer (world p) id = false
                  ∧ has_marketing (world p) id = false) as Hstarted.
  { intros d. unfold started. rewrite list_elem_of_omap. split.
    - intros (id & [Hnew Hin]%list_elem_of_filter
                 & (Hl & Hf & Hd & Hm)%should_generate_Some).
      by exists id.
    - intros (id & Hin & Hnew & Hgen). exists id. split.
      + by apply list_elem_of_filter.
      + by apply should_generate_Some. }
  split; [done|]. split; [done|]. split.
  { intros d Hd. pose proof Hd as (id & _ & _ & _ & [Hl Hid]%find_diff_Some & _)%Hstarted.
    split; [done|].
    apply (start_requests_notes started (world p) (obj_id d)).
    apply list_elem_of_fmap. eauto. }
  split.
  { intros id Hid. by apply (start_requests_notes started (world p) id). }
  split; [apply start_requests_listing|]. split; [apply start_requests_db|].
  rewrite filter_none; [done|]. by intros v Hv Hnot.
Qed.

(** X14.  When every listed record has both notes and no spinner, the
    button that generates all asks for every listed record again, in
    the order of the list, and opens every panel: when the handler
    returns each record shows empty notes and its spinner instead of the
    notes it had, while the database is untouched, so that the button is
    back in its other mode.  The ids of the list are strings, as
    [DiffItem] declares. *)
Theorem generate_all_regenerates_complete_notes p :
  Forall (λ d, d !! "id" = Some (PStr (obj_id d))) (listed (world p)) →
  allGenerated (world p) = true →
  let r := handleGenerateAllClick p in
  r.1 = listed (world p)
  ∧ r.1 ≠ []
  ∧ openItems r.2 = obj_id <$> listed (world p)
  ∧ (∀ d, d ∈ listed (world p) →
       has_developer (world p) (obj_id d) = true
       ∧ has_marketing (world p) (obj_id d) = true
       ∧ has_developer (world r.2) (obj_id d) = false
       ∧ has_marketing (world r.2) (obj_id d) = false
       ∧ is_loading (world r.2) (obj_id d) = true)
  ∧ listing (world r.2) = listing (world p)
  ∧ db (world r.2) = db (world p)
  ∧ allGenerated (world r.2) = false.
Proof.
  intros _ Hgen. cbv zeta. unfold handleGenerateAllClick. rewrite Hgen. cbv zeta.
  apply allGenerated_true in Hgen as [Hne Hall].
  rewrite filter_all by (intros d Hd; by apply Hall).
  cbn [fst snd world openItems].
  assert (∀ d, d ∈ listed (world p) →
            has_developer (start_requests (listed (world p)) (world p)) (obj_id d) = false
            ∧ has_marketing (start_requests (listed (world p)) (world p)) (obj_id d) = false
            ∧ is_loading (start_requests (listed (world p)) (world p)) (obj_id d) = true)
    as Hafter.
  { intros d Hd.
    destruct (start_requests_notes (listed (world p)) (world p) (obj_id d))
      as [(Hg & Hl & _) _].
    { apply list_elem_of_fmap. eauto. }
    unfold has_developer, has_marketing, is_loading. by rewrite Hg, Hl. }
  split; [done|]. split; [done|]. split; [done|]. split.
  { intros d Hd. destruct (Hall d Hd) as (? & ? & _), (Hafter d Hd) as (? & ? & ?). done. }
  split; [apply start_requests_listing|]. split; [apply start_requests_db|].
  destruct (allGenerated (start_requests (listed (world p)) (world p))) eqn:E; [|done].
  apply allGenerated_true in E as [_ E].
  assert (listed (start_requests (listed (world p)) (world p)) = listed (world p)) as Hl.
  { unfold listed. by rewrite start_requests_listing. }
  rewrite Hl in E. destruct (listed (world p)) as [|d ds] eqn:El; [done|].
  assert (d ∈ d :: ds) as Hd by by left.
  destruct (E d Hd) as (_ & _ & E3), (Hafter d Hd) as (_ & _ & A3). congruence.
Qed.

Lemma generate_all_regenerates_complete_notes_witness :
  let p := {| world := noted42; openItems := [] |} in
  (handleGenerateAllClick p).1 = [DiffItem.to_obj pr42]
  ∧ allGenerated (world (handleGenerateAllClick p).2) = false.
Proof.
  cbv zeta.
  destruct (generate_all_regenerates_complete_notes {| world := noted42; openItems := [] |})
    as (H1 & _ & _ & _ & _ & _ & H2).
  - compute_decide.
  - compute_decide.
  - split; [|exact H2]. rewrite H1. compute_decide.
Defined.
End extras_handlers.

(** ** The backend and the page together *)

Section more_backend.
Implicit Types (w : World) (diff : DiffItem.t).

(** The error responses [POST] can give. *)
Lemma POST_errors hasApiKey body status err :
  POST hasApiKey body = ErrorResponse status err →
  (status = 500 ∧ err = "Missing OpenAI API key.")
  ∨ (status = 400 ∧ err = "Malformed JSON in request body.")
  ∨ (status = 400 ∧ err = "diffItem with description and diff is required.").
Proof.
  unfold POST. destruct hasApiKey; simpl; [|intros [= <- <-]; by left].
  destruct body as [b|]; [|intros [= <- <-]; right; by left].
  intros H. right. right.
  destruct (b !! "diffItem") as [[| |diffItem]|]; try by injection H as <- <-.
  destruct (diffItem !! "description") as [description|]; [|by injection H as <- <-].
  destruct (diffItem !! "diff") as [diff|]; [|by injection H as <- <-].
  match type of H with (if ?c then _ else _) = _ => destruct c end; [done|].
  by injection H as <- <-.
Qed.

(** A request that gets no body changes the page at its own id only and
    leaves the database alone. *)
Lemma not_ok_request diff msg w :
  let w' := fetchAIGeneratedDiff diff (FetchNotOk msg) w in
  summaryErrors (notes w') !! DiffItem.id diff = Some msg
  ∧ loadingSummaries (notes w') !! DiffItem.id diff = Some false
  ∧ generatedSummaries (notes w') !! DiffItem.id diff
    = Some {| developer := ""; marketing := "" |}
  ∧ db w' = db w
  ∧ listing w' = listing w.
Proof. cbv zeta. simpl. by rewrite !lookup_insert_eq. Qed.

(** The text the backend sends is made of one piece per chunk of the
    completion: the arguments of the first tool call, or nothing. *)
Lemma backend_stream_text (chunks : list CompletionChunk) :
  concat_chunks (backend_stream chunks)
  = concat_chunks ((λ c : CompletionChunk,
      match c with Some (Some args :: _) => args | _ => "" end) <$> chunks).
Proof.
  assert (∀ x l, concat_chunks (x :: l) = x +:+ concat_chunks l) as Hc by done.
  unfold backend_stream. induction chunks as [|c chunks IH]; [done|].
  rewrite fmap_cons, Hc, <-IH.
  destruct c as [[|[args|] more]|]; simpl; rewrite ?Hc, ?or_str_nil_r; done.
Qed.
End more_backend.

Section extras_backend.
Implicit Types (w : World) (diff : DiffItem.t).

(** X15.  Every error response of the validation in [POST] reaches the
    user word for word: its status is 400 or 500, and a request of the
    page that is answered with it ends with the text of the response as
    the error of its id, the spinner off, empty notes and the database
    untouched. *)
Theorem backend_rejections_are_shown (hasApiKey : bool) body (status : Z) (err : string)
    diff w :
  POST hasApiKey body = ErrorResponse status err →
  let w' := fetchAIGeneratedDiff diff (fetch_outcome_of_error status err) w in
  (status = 400 ∨ status = 500)
  ∧ fetch_outcome_of_error status err = FetchNotOk err
  ∧ summaryErrors (notes w') !! DiffItem.id diff = Some err
  ∧ loadingSummaries (notes w') !! DiffItem.id diff = Some false
  ∧ generatedSummaries (notes w') !! DiffItem.id diff
    = Some {| developer := ""; marketing := "" |}
  ∧ db w' = db w.
Proof.
  intros H. cbv zeta.
  assert (fetch_outcome_of_error status err = FetchNotOk err) as Hout.
  { destruct (POST_errors _ _ _ _ H) as [[-> ->]|[[-> ->]|[-> ->]]]; reflexivity. }
  split.
  { destruct (POST_errors _ _ _ _ H) as [[-> _]|[[-> _]|[-> _]]]; auto. }
  split; [done|]. rewrite Hout.
  destruct (not_ok_request diff err w) as (? & ? & ? & ? & _). done.
Qed.

Lemma backend_rejections_are_shown_witness :
  summaryErrors (notes (fetchAIGeneratedDiff pr42
    (fetch_outcome_of_error 500 "Missing OpenAI API key.") listed42)) !! "42"
  = Some "Missing OpenAI API key.".
Proof.
  assert (POST false None = ErrorResponse 500 "Missing OpenAI API key.") as H by done.
  exact (proj1 (proj2 (proj2 (backend_rejections_are_shown false None 500
           "Missing OpenAI API key." pr42 listed42 H)))).
Defined.

(** X16.  The request the page makes for a record.  Without the API
    key [POST] answers every record with status 500 and the text that
    the key is missing, and the page shows that text.  With the key the
    request is refused exactly when the description or the diff of the
    record is empty: then the answer is status 400 and the page shows
    that a diffItem with description and diff is required; otherwise
    the two texts go into the prompt unchanged.  So the texts reach the
    prompt exactly when the key is there and neither text is empty.
    The other properties of the record play no part. *)
Theorem empty_description_is_refused (hasApiKey : bool) diff w :
  let id := DiffItem.id diff in
  let answer := POST hasApiKey (Some (request_body (DiffItem.to_obj diff))) in
  let missing := "Missing OpenAI API key." in
  let refusal := "diffItem with description and diff is required." in
  let shown (status : Z) (text : string) :=
    summaryErrors (notes (fetchAIGeneratedDiff diff (fetch_outcome_of_error status text) w))
      !! id in
  (hasApiKey = false →
     answer = ErrorResponse 500 missing ∧ shown 500 missing = Some missing)
  ∧ (hasApiKey = true →
     DiffItem.description diff = "" ∨ DiffItem.diff diff = "" →
     answer = ErrorResponse 400 refusal ∧ shown 400 refusal = Some refusal)
  ∧ (hasApiKey = true →
     DiffItem.description diff ≠ "" → DiffItem.diff diff ≠ "" →
     answer = Generate (PStr (DiffItem.description diff)) (PStr (DiffItem.diff diff)))
  ∧ ((∃ description text, answer = Generate description text)
     ↔ hasApiKey = true ∧ DiffItem.description diff ≠ "" ∧ DiffItem.diff diff ≠ "").
Proof.
  cbv zeta.
  assert (POST true (Some (request_body (DiffItem.to_obj diff)))
          = if truthy (Some (PStr (DiffItem.description diff)))
               && truthy (Some (PStr (DiffItem.diff diff)))
            then Generate (PStr (DiffItem.description diff)) (PStr (DiffItem.diff diff))
            else ErrorResponse 400 "diffItem with description and diff is required.") as Hkey.
  { reflexivity. }
  assert (DiffItem.description diff = "" ∨ DiffItem.diff diff = "" →
          POST true (Some (request_body (DiffItem.to_obj diff)))
          = ErrorResponse 400 "diffItem with description and diff is required.") as Hrefused.
  { intros Hempty. rewrite Hkey. destruct Hempty as [-> | ->]; simpl; [done|].
    by destruct (String.eqb (DiffItem.description diff) ""). }
  assert (DiffItem.description diff ≠ "" → DiffItem.diff diff ≠ "" →
          POST true (Some (request_body (DiffItem.to_obj diff)))
          = Generate (PStr (DiffItem.description diff)) (PStr (DiffItem.diff diff))) as Hpassed.
  { intros Hd Hf. rewrite Hkey. simpl.
    destruct (DiffItem.description diff); [done|]. by destruct (DiffItem.diff diff). }
  split; [|split; [|split]].
  - intros ->. split; [reflexivity|]. simpl. by rewrite !lookup_insert_eq.
  - intros -> Hempty. split; [by apply Hrefused|]. simpl. by rewrite !lookup_insert_eq.
  - intros ->. exact Hpassed.
  - split.
    + intros (description & text & Hgen). destruct hasApiKey; [|discriminate Hgen].
      split; [done|].
      destruct (decide (DiffItem.description diff = "")) as [Hd|Hd];
        [rewrite Hrefused in Hgen by auto; discriminate Hgen|].
      destruct (decide (DiffItem.diff diff = "")) as [Hf|Hf];
        [rewrite Hrefused in Hgen by auto; discriminate Hgen|].
      done.
    + intros (-> & Hd & Hf). rewrite Hpassed by done. eauto.
Qed.

(** X17.  The page reads the first tool call only.  However the
    transport cuts the text that the backend enqueues, the loop of the
    page ends with the concatenation, over the chunks of the completion,
    of the arguments of each chunk's first tool call, and with the
    captures of the two patterns on that text: chunks without tool
    calls, first tool calls without arguments and all further tool calls
    of a chunk add nothing. *)
Theorem page_reads_first_tool_call_only (chunks : list CompletionChunk) (id : string)
    (reads : list (string * Z)) w :
  concat_chunks reads.*1 = concat_chunks (backend_stream chunks) →
  let text := concat_chunks ((λ c : CompletionChunk,
                match c with Some (Some args :: _) => args | _ => "" end) <$> chunks) in
  let st := (read_loop id reads (initialExtraction, begin_request id w)).1 in
  accumulated st = text
  ∧ finalDeveloper st = default "" (Regex.match_capture Regex.devRe text)
  ∧ finalMarketing st = default "" (Regex.match_capture Regex.mktRe text).
Proof.
  intros Hcut. cbv zeta. rewrite <-backend_stream_text, <-Hcut.
  apply (loop_finals id reads (begin_request id w)).
Qed.

Lemma page_reads_first_tool_call_only_witness :
  let chunks : list CompletionChunk :=
    [None; Some [Some "{"; Some "x"]; Some [None; Some "y"]; Some [];
     Some [Some (Regex.devRe +:+ "Fix"); Some "z"]] in
  let reads := [("{", 1); (Regex.devRe, 2); ("Fix", 3)] in
  finalDeveloper (read_loop "42" reads (initialExtraction, begin_request "42" listed42)).1
  = default "" (Regex.match_capture Regex.devRe ("{" +:+ Regex.devRe +:+ "Fix")).
Proof.
  cbv zeta.
  refine (proj1 (proj2 (page_reads_first_tool_call_only
    [None; Some [Some "{"; Some "x"]; Some [None; Some "y"]; Some [];
     Some [Some (Regex.devRe +:+ "Fix"); Some "z"]] "42"
    [("{", 1); (Regex.devRe, 2); ("Fix", 3)] listed42 _))).
  compute_decide.
Defined.
End extras_backend.

(** ** Requests in flight together *)

Section more_interleaving.
Implicit Types (w : World) (s : Step) (sw : ExtractionState * World) (id k : string).







End more_interleaving.

Section extras_interleaving.
Implicit Types (w : World) (diff : DiffItem.t).


End extras_interleaving.

(** ** A panel opened again *)

Section more_reopen.
Import Regex.
Implicit Types (w : World) (p : Page) (d : Obj) (id : string).

Lemma accordion_started (values : list string) p d :
  d ∈ (handleAccordionChange values p).1
  ↔ ∃ id, id ∈ values ∧ (id ∉ openItems p) ∧ should_generate (world p) id = Some d.
Proof.
  unfold handleAccordionChange. cbv zeta. simpl. rewrite list_elem_of_omap. split.
  - intros (id & [Hnew Hin]%list_elem_of_filter & Hgen). by exists id.
  - intros (id & Hin & Hnew & Hgen). exists id. split; [|done].
    by apply list_elem_of_filter.
Qed.

(** The entry the page shows for the id of a request that is over. *)
Lemma fetch_entry (diff : DiffItem.t) (r : FetchOutcome) w :
  generatedSummaries (notes (fetchAIGeneratedDiff diff r w)) !! DiffItem.id diff
  = Some match r with
         | FetchBody reads _ _ =>
             let st := (read_loop (DiffItem.id diff) reads
                          (initialExtraction, begin_request (DiffItem.id diff) w)).1 in
             {| developer := finalDeveloper st; marketing := finalMarketing st |}
         | _ => {| developer := ""; marketing := "" |}
         end.
Proof.
  destruct r as [abort m|msg|reads ending endTime].
  - simpl. by rewrite lookup_insert_eq.
  - simpl. by rewrite lookup_insert_eq.
  - by destruct (request_end diff reads ending endTime w) as (_ & -> & _).
Qed.

Lemma has_notes_entry w id (e : Summary) :
  generatedSummaries (notes w) !! id = Some e →
  (has_developer w id = false ∧ has_marketing w id = false)
  ↔ e = {| developer := ""; marketing := "" |}.
Proof.
  intros He. unfold has_developer, has_marketing. rewrite He. simpl.
  destruct e as [dev mkt]. simpl. split.
  - intros [Hd Hm]. apply negb_false_iff in Hd, Hm.
    apply String.eqb_eq in Hd, Hm. by subst.
  - by intros [= -> ->].
Qed.
End more_reopen.

Section extras_reopen.
Import Regex.
Implicit Types (w : World) (p : Page) (d : Obj).

(** X19.  A panel opened again asks again only when nothing was
    extracted.  Take the listed record of an id and a request for it
    that is over, whatever happened to it, and let the panel of the id,
    closed meanwhile, be among the open ones again.  The handler starts
    a new request for the record exactly when the page shows two empty
    notes for the id.  So it does after a fetch that threw or a response
    that was not ok, and it does not after a stream that carried the
    arguments object with at least one note that is not empty. *)
Theorem reopened_panel_retries_only_after_failure d (r : FetchOutcome) p
    (values : list string) :
  find_diff (world p) (obj_id d) = Some d →
  obj_id d ∈ values →
  obj_id d ∉ openItems p →
  let w' := fetchAIGeneratedDiff (as_DiffItem d) r (world p) in
  let started := (handleAccordionChange values {| world := w'; openItems := openItems p |}).1 in
  (d ∈ started
   ↔ generatedSummaries (notes w') !! obj_id d = Some {| developer := ""; marketing := "" |})
  ∧ (∀ isAbortError m, r = FetchThrew isAbortError m → d ∈ started)
  ∧ (∀ errorMsg, r = FetchNotOk errorMsg → d ∈ started)
  ∧ (∀ reads ending endTime D M,
       r = FetchBody reads ending endTime →
       concat_chunks reads.*1 = payload D M →
       has_dquote D = false → has_dquote M = false →
       D ≠ "" ∨ M ≠ "" → d ∉ started).
Proof.
  intros Hfind Hin Hnew. cbv zeta.
  set (w' := fetchAIGeneratedDiff (as_DiffItem d) r (world p)).
  pose proof (fetch_entry (as_DiffItem d) r (world p)) as Hentry.
  change (DiffItem.id (as_DiffItem d)) with (obj_id d) in Hentry. fold w' in Hentry.
  destruct (fetch_own (as_DiffItem d) r (world p) (world p)) as (Hl & _ & _).
  change (DiffItem.id (as_DiffItem d)) with (obj_id d) in Hl. fold w' in Hl.
  destruct (fetch_frame (as_DiffItem d) r (world p)) as [Hlist _]. fold w' in Hlist.
  assert (find_diff w' (obj_id d) = Some d) as Hfind'.
  { unfold find_diff, listed. rewrite Hlist. exact Hfind. }
  assert (d ∈ (handleAccordionChange values {| world := w'; openItems := openItems p |}).1
          ↔ generatedSummaries (notes w') !! obj_id d
            = Some {| developer := ""; marketing := "" |}) as Hiff.
  { rewrite accordion_started. simpl. split.
    - intros (id0 & _ & _ & (_ & Hf0 & Hd0 & Hm0)%should_generate_Some).
      pose proof (find_diff_Some _ _ _ Hf0) as [_ Hid0%obj_id_of]. subst id0.
      rewrite Hentry. f_equal. by apply (has_notes_entry w' (obj_id d)).
    - intros He. exists (obj_id d). split; [done|]. split; [done|].
      apply should_generate_Some.
      destruct (proj2 (has_notes_entry w' (obj_id d) _ He) eq_refl) as [Hd0 Hm0].
      split; [|done]. unfold is_loading. by rewrite Hl. }
  split; [exact Hiff|]. split; [|split].
  - intros abort m ->. apply Hiff. exact Hentry.
  - intros msg ->. apply Hiff. exact Hentry.
  - intros reads ending endTime D M -> Htext HD HM Hnotes Hstarted.
    apply Hiff in Hstarted. rewrite Hentry in Hstarted. cbv zeta in Hstarted.
    destruct (loop_finals (obj_id d) reads (begin_request (obj_id d) (world p)))
      as (_ & Hdev & Hmkt). cbv zeta in Hdev, Hmkt.
    rewrite Htext, devRe_on_payload in Hdev by done.
    rewrite Htext, mktRe_on_payload in Hmkt by done.
    change (DiffItem.id (as_DiffItem d)) with (obj_id d) in Hstarted.
    rewrite Hdev, Hmkt in Hstarted. simpl in Hstarted.
    injection Hstarted as -> ->. by destruct Hnotes.
Qed.

Lemma reopened_panel_retries_only_after_failure_witness :
  let p := {| world := listed42; openItems := [] |} in
  let w' := fetchAIGeneratedDiff (as_DiffItem (DiffItem.to_obj pr42))
              (FetchNotOk "Missing OpenAI API key.") listed42 in
  DiffItem.to_obj pr42
  ∈ (handleAccordionChange ["42"] {| world := w'; openItems := [] |}).1.
Proof.
  cbv zeta.
  destruct (reopened_panel_retries_only_after_failure (DiffItem.to_obj pr42)
              (FetchNotOk "Missing OpenAI API key.")
              {| world := listed42; openItems := [] |} ["42"]) as (_ & _ & H & _).
  - compute_decide.
  - compute_decide.
  - compute_decide.
  - by apply (H "Missing OpenAI API key.").
Defined.
End extras_reopen.
